(** * The room session and image-synchronisation engine of the photo guessing game

    A shallow embedding of [src/lib/game-server.js]: the room registry, the
    socket command handlers, the timers they arm, deck assembly with its
    in-place shuffle, and round resolution.

    Conventions of the embedding.
    - [uuidv4()] is a fresh-identifier supply: the k-th call of the process
      returns the identifier [k] (type [Uuid]).
    - [Math.floor(Math.random() * n)] is an integer of [0, n).  A handler that
      draws random numbers receives the list of its draws; the k-th draw [d]
      yields [d mod n], so every outcome of [0, n) and no other is covered.
    - [socket.emit], [io.to(room).emit], the acknowledgment callback and
      [setTimeout] are recorded, in program order, in the list of [Output]s of
      a handler.  A timer that fires is an [Input] of its own.
    - A JavaScript [TypeError] thrown inside a handler is recorded by the
      [threw] flag of the [Outcome]; nothing catches it in the server.
    - Room objects are shared and mutated in place, and timers keep them
      alive: they live in a store ([heap]) and the registry [rooms] maps a room
      code to a reference into it.
    - The payload of a command has the shape that the client sends: room
      codes, names and images are strings, [images] is an array, [batchIndex]
      and [imageIndex] are integers (of any sign and size) and
      [guessedPlayerId] is an identifier.
    - Real time is not modelled: a timer may fire at any moment after it was
      armed, and the statements about all reachable states let any timer
      fire at any moment, with any captured values.
    - [console.log] is not modelled. *)

From stdpp Require Import gmap strings list fin_maps.

(** ** Data model *)

(** The identifiers that [uuidv4] issues. *)
Abbreviation Uuid := nat (only parsing).

Inductive GameState := LOBBY | PLAYING | RESULTS | GAME_OVER.

#[global] Instance GameState_eq_dec : EqDecision GameState.
Proof. solve_decision. Defined.

Module Player.
Record t := mk {
    id : Uuid;
    socketId : string;
    name : string;
    isHost : bool;
    imageCount : nat;
    score : nat;
    images : list string
  }.

Definition set_socketId (v : string) (p : t) : t :=
    mk (id p) v (name p) (isHost p) (imageCount p) (score p) (images p).
Definition set_name (v : string) (p : t) : t :=
    mk (id p) (socketId p) v (isHost p) (imageCount p) (score p) (images p).
Definition set_isHost (v : bool) (p : t) : t :=
    mk (id p) (socketId p) (name p) v (imageCount p) (score p) (images p).
Definition set_score (v : nat) (p : t) : t :=
    mk (id p) (socketId p) (name p) (isHost p) (imageCount p) v (images p).
  (** [player.images = images; player.imageCount = images.length] *)
Definition set_images (v : list string) (p : t) : t :=
    mk (id p) (socketId p) (name p) (isHost p) (length v) (score p) v.
  (** [p.score = 0; p.imageCount = 0; p.images = []] *)
Definition reset (p : t) : t :=
    mk (id p) (socketId p) (name p) (isHost p) 0 0 [].
End Player.

(** An entry of [room.allImages]. *)
Module ImageData.
Record t := mk {
    image : string;
    ownerId : Uuid;
    ownerName : string
  }.
End ImageData.

Module Room.
Record t := mk {
    id : string;
    players : list Player.t;
    gameState : GameState;
    currentImageIndex : nat;
    allImages : list ImageData.t;
    syncComplete : bool;
    (** [Map<playerId, Set<batchIndex>>] *)
    syncProgress : gmap Uuid (gset Z);
    (** [Map<imageIndex, Map<playerId, guessedPlayerId>>]; the property does
        not exist ([None]) until start-game or new-game assigns it. *)
    guesses : option (gmap Z (gmap Uuid Uuid))
  }.

Definition set_players (v : list Player.t) (r : t) : t :=
    mk (id r) v (gameState r) (currentImageIndex r) (allImages r)
       (syncComplete r) (syncProgress r) (guesses r).
Definition set_gameState (v : GameState) (r : t) : t :=
    mk (id r) (players r) v (currentImageIndex r) (allImages r)
       (syncComplete r) (syncProgress r) (guesses r).
Definition set_currentImageIndex (v : nat) (r : t) : t :=
    mk (id r) (players r) (gameState r) v (allImages r)
       (syncComplete r) (syncProgress r) (guesses r).
Definition set_allImages (v : list ImageData.t) (r : t) : t :=
    mk (id r) (players r) (gameState r) (currentImageIndex r) v
       (syncComplete r) (syncProgress r) (guesses r).
Definition set_syncComplete (v : bool) (r : t) : t :=
    mk (id r) (players r) (gameState r) (currentImageIndex r) (allImages r)
       v (syncProgress r) (guesses r).
Definition set_syncProgress (v : gmap Uuid (gset Z)) (r : t) : t :=
    mk (id r) (players r) (gameState r) (currentImageIndex r) (allImages r)
       (syncComplete r) v (guesses r).
Definition set_guesses (v : option (gmap Z (gmap Uuid Uuid))) (r : t) : t :=
    mk (id r) (players r) (gameState r) (currentImageIndex r) (allImages r)
       (syncComplete r) (syncProgress r) v.
End Room.

(** ** What a handler sends *)

(** The [{id, name}] roster entries of round-started and reconnected. *)
Record RosterEntry := { re_id : Uuid; re_name : string }.

(** An entry of [sanitizeRoom(room).players]. *)
Record PublicPlayer := {
  pp_id : Uuid; pp_name : string; pp_isHost : bool;
  pp_imageCount : nat; pp_score : nat
}.

(** The value of [sanitizeRoom(room)]. *)
Record PublicRoom := {
  pr_id : string; pr_players : list PublicPlayer; pr_gameState : GameState;
  pr_currentImageIndex : nat; pr_syncComplete : bool
}.

(** An entry of [playerProgress] in sync-progress. *)
Record PlayerProgress := {
  prog_id : Uuid; prog_name : string; prog_synced : nat; prog_total : nat
}.

(** An entry of [results] in round-results. *)
Module Result.
Record t := mk {
    playerId : Uuid;
    name : string;
    score : nat;
    guessedCorrectly : bool
  }.
End Result.

(** An entry of [scores] in round-results and game-over. *)
Record ScoreEntry := { se_id : Uuid; se_name : string; se_score : nat }.

(** The resume data that reconnected carries while PLAYING. *)
Record ResumeData := {
  rd_currentImage : option string; rd_imageIndex : nat;
  rd_totalImages : nat; rd_players : list RosterEntry
}.

Inductive Event :=
  | room_created (roomId : string) (playerId : Uuid)
  | joined_room (roomId : string) (playerId : Uuid)
  | error (message : string)
  | room_updated (room : PublicRoom)
  | reconnected (roomId : string) (playerId : Uuid) (room : PublicRoom)
      (gameState : GameState) (resume : option ResumeData)
  (** [progress] is [Math.round((totalSynced / totalRequired) * 100)], a
      floating-point value; the event carries its two integer operands. *)
  | sync_progress (totalSynced totalRequired : nat)
      (playerProgress : list PlayerProgress)
  | sync_complete
  | sync_image_batch (batchIndex totalBatches : nat) (image : string)
  | guess_submitted
  | round_started (image : string) (imageIndex totalImages : nat)
      (roster : list RosterEntry)
  | round_results (correctOwnerId : Uuid) (correctOwnerName : string)
      (results : list Result.t) (scores : list ScoreEntry) (isLastRound : bool)
  | game_over (winner : option ScoreEntry) (finalScores : list ScoreEntry)
  | new_game_started (room : PublicRoom)
  | player_left (playerId : Uuid) (playerName : string).

(** The argument of the acknowledgment callback. *)
Inductive Ack := ack_success | ack_error (message : string).

(** A reference to a room object: its position in the store of room objects
    (see [Server]). *)
Abbreviation RoomRef := nat (only parsing).

(** The closures handed to [setTimeout].  Each is represented by what it
    captures. *)
Inductive Timer :=
  (** disconnect: captures [roomId], the [player] object and [socket.id].
      The player object is represented by its [id]: identifiers are never
      reused and player objects are never copied, so the object that the
      timer later finds under this [id] is the captured one. *)
  | grace_timer (roomId : string) (playerId : Uuid) (socketId : string)
  (** startImageSync: captures the [room] object, [index] and [imageData]. *)
  | batch_timer (room : RoomRef) (index : nat) (image : string)
  (** processRoundResults: captures the [room] object, [isLastRound] and
      [scores]. *)
  | advance_timer (room : RoomRef) (isLastRound : bool)
      (scores : list ScoreEntry).

Inductive Output :=
  | to_socket (socketId : string) (e : Event)      (* socket.emit *)
  | to_room (roomId : string) (e : Event)          (* io.to(roomId).emit *)
  | callback (a : Ack)                             (* callback?.(a) *)
  | socket_join (socketId roomId : string)         (* socket.join(roomId) *)
  | set_timeout (t : Timer) (delay_ms : nat).      (* setTimeout(t, delay) *)

(** The result of running a piece of handler code on a state of type [S]:
    the state it leaves, what it sent, and whether it ended by throwing. *)
Record Outcome (S : Type) := mkOutcome {
  next : S;
  emitted : list Output;
  threw : bool
}.
Arguments mkOutcome {S} _ _ _.
Arguments next {S} _.
Arguments emitted {S} _.
Arguments threw {S} _.

Definition ret {S} (s : S) (out : list Output) : Outcome S := mkOutcome s out false.
Definition throw {S} (s : S) (out : list Output) : Outcome S := mkOutcome s out true.

(** Sequencing: run [k] on the state [o] left unless [o] threw; the outputs
    are concatenated in program order. *)
Definition and_then {S} (o : Outcome S) (k : S → Outcome S) : Outcome S :=
  if threw o then o
  else let o' := k (next o) in
       mkOutcome (next o') (emitted o ++ emitted o') (threw o').

(** ** JavaScript helpers *)

(** An insertion-ordered [Map] with string keys: [get], [set] (an existing
    key keeps its position and takes the new value) and [delete]. *)
Section JsMap.
Context {V : Type}.

Fixpoint Map_get (m : list (string * V)) (k : string) : option V :=
  match m with
  | [] => None
  | (k', v) :: m' => if decide (k' = k) then Some v else Map_get m' k
  end.

Fixpoint Map_set (m : list (string * V)) (k : string) (v : V) : list (string * V) :=
  match m with
  | [] => [(k, v)]
  | (k', v') :: m' =>
      if decide (k' = k) then (k, v) :: m' else (k', v') :: Map_set m' k v
  end.

Fixpoint Map_delete (m : list (string * V)) (k : string) : list (string * V) :=
  match m with
  | [] => []
  | (k', v') :: m' =>
      if decide (k' = k) then m' else (k', v') :: Map_delete m' k
  end.

End JsMap.

(** [s.charAt(n)] *)
Definition charAt (s : string) (n : nat) : string :=
  match String.get n s with
  | Some c => String c EmptyString
  | None => EmptyString
  end.

(** [Math.floor(Math.random() * n)] at the [k]-th call of [Math.random] in
    the running handler. *)
Definition randomIndex (draws : list nat) (k n : nat) : nat :=
  nth k draws 0 mod n.

(** [[a[i], a[j]] = [a[j], a[i]]]: the right-hand side is read first, then
    [a[i]] and [a[j]] are written in that order.  Both indices are inside the
    array wherever the server swaps (see [shuffle_from_indices]); outside,
    JavaScript would grow the array, which the last branch does not follow. *)
Definition swap {A} (a : list A) (i j : nat) : list A :=
  match a !! j, a !! i with
  | Some aj, Some ai => <[j := ai]> (<[i := aj]> a)
  | _, _ => a
  end.

(** [players.find((p) => p.socketId === socket.id)], with the position of
    the object found. *)
Definition findBySocket (sid : string) (players : list Player.t)
  : option (nat * Player.t) :=
  list_find (λ p, Player.socketId p = sid) players.

(** [players.find((p) => p.id === playerId)] *)
Definition findById (playerId : Uuid) (players : list Player.t)
  : option (nat * Player.t) :=
  list_find (λ p, Player.id p = playerId) players.

(** ** Room code *)

Definition chars : string := "ABCDEFGHJKLMNPQRSTUVWXYZ23456789".

(** The loop of [generateRoomCode]: [n] iterations remain, [k] calls of
    [Math.random] were made. *)
Fixpoint generateRoomCode_loop (n k : nat) (draws : list nat) (code : string) : string :=
  match n with
  | 0 => code
  | S n' =>
      generateRoomCode_loop n' (S k) draws
        (code +:+ charAt chars (randomIndex draws k (String.length chars)))
  end.

Definition generateRoomCode (draws : list nat) : string :=
  generateRoomCode_loop 6 0 draws "".

(** ** Room view *)

Definition sanitizePlayer (p : Player.t) : PublicPlayer :=
  {| pp_id := Player.id p; pp_name := Player.name p;
     pp_isHost := Player.isHost p; pp_imageCount := Player.imageCount p;
     pp_score := Player.score p |}.

Definition sanitizeRoom (room : Room.t) : PublicRoom :=
  {| pr_id := Room.id room;
     pr_players := sanitizePlayer <$> Room.players room;
     pr_gameState := Room.gameState room;
     pr_currentImageIndex := Room.currentImageIndex room;
     pr_syncComplete := Room.syncComplete room |}.

(** [room.players.map((p) => ({ id: p.id, name: p.name }))] *)
Definition roster (room : Room.t) : list RosterEntry :=
  (λ p, {| re_id := Player.id p; re_name := Player.name p |}) <$> Room.players room.

(** ** Image sync *)

(** The inner [forEach] of [startImageSync]: one player's images, tagged. *)
Definition tagImages (player : Player.t) : list ImageData.t :=
  (λ image, ImageData.mk image (Player.id player) (Player.name player))
    <$> Player.images player.

(** The deck before the shuffle: the pushes of the two nested [forEach]. *)
Definition combineImages (players : list Player.t) : list ImageData.t :=
  players ≫= tagImages.

(** The shuffle loop [for (let i = ...; i > 0; i--)] from index [i]
    downwards, after [k] calls of [Math.random]. *)
Fixpoint shuffle_from {A} (i k : nat) (draws : list nat) (a : list A) : list A :=
  match i with
  | 0 => a
  | S i' =>
      let j := randomIndex draws k (S i' + 1) in
      shuffle_from i' (S k) draws (swap a (S i') j)
  end.

Definition shuffle {A} (draws : list nat) (a : list A) : list A :=
  shuffle_from (length a - 1) 0 draws a.

(** The [setTimeout] calls of the last [forEach] of [startImageSync]. *)
Definition scheduleBatches (room : RoomRef) (deck : list ImageData.t) : list Output :=
  imap (λ index imageData,
          set_timeout (batch_timer room index (ImageData.image imageData))
                      (index * 100)) deck.

(** [startImageSync(io, room)]; [self] is the reference of [room]. *)
Definition startImageSync (self : RoomRef) (draws : list nat) (room : Room.t)
  : Outcome Room.t :=
  let deck := shuffle draws (combineImages (Room.players room)) in
  ret (Room.set_allImages deck room) (scheduleBatches self deck).

(** [room.syncProgress.get(p.id)?.size || 0] *)
Definition syncedCount (room : Room.t) (p : Player.t) : nat :=
  from_option size 0 (Room.syncProgress room !! Player.id p).

Definition playerProgress (room : Room.t) : list PlayerProgress :=
  (λ p, {| prog_id := Player.id p; prog_name := Player.name p;
           prog_synced := syncedCount room p;
           prog_total := length (Room.allImages room) |}) <$> Room.players room.

(** [playerProgress.reduce((sum, p) => sum + p.synced, 0)] *)
Definition totalSynced (progress : list PlayerProgress) : nat :=
  foldl (λ sum p, sum + prog_synced p) 0 progress.

(** [room.players.every((p) => synced(p) >= totalImages)] *)
Definition allSynced (room : Room.t) : bool :=
  forallb (λ p, length (Room.allImages room) <=? syncedCount room p)
          (Room.players room).

(** The images-synced handler, once the room is resolved. *)
Definition imagesSynced (roomId sid : string) (batchIndex : Z) (room : Room.t)
  : Outcome Room.t :=
  match findBySocket sid (Room.players room) with
  | None => ret room []
  | Some (_, player) =>
      let acked := default ∅ (Room.syncProgress room !! Player.id player) in
      let room1 :=
        Room.set_syncProgress
          (<[Player.id player := {[batchIndex]} ∪ acked]> (Room.syncProgress room))
          room in
      let progress := playerProgress room1 in
      let totalRequired := length (Room.allImages room1) * length (Room.players room1) in
      let report :=
        to_room roomId (sync_progress (totalSynced progress) totalRequired progress) in
      if allSynced room1 && negb (Room.syncComplete room1) then
        let room2 := Room.set_syncComplete true room1 in
        ret room2 [report;
                   to_room roomId sync_complete;
                   to_room roomId (room_updated (sanitizeRoom room2))]
      else ret room1 [report]
  end.

(** The submit-images handler, once the room is resolved. *)
Definition submitImages (self : RoomRef) (roomId sid : string) (images : list string)
    (draws : list nat) (room : Room.t) : Outcome Room.t :=
  match findBySocket sid (Room.players room) with
  | None => ret room [callback (ack_error "Player not found")]
  | Some (i, player) =>
      let room1 :=
        Room.set_players (<[i := Player.set_images images player]> (Room.players room)) room in
      let allReady :=
        forallb (λ p, Player.imageCount p =? 10) (Room.players room1) in
      and_then
        (ret room1 [callback ack_success;
                    to_room roomId (room_updated (sanitizeRoom room1))])
        (λ r, if allReady then startImageSync self draws r else ret r [])
  end.

(** ** Rounds *)

(** [sendRound(io, room)]: it only emits. *)
Definition sendRound (room : Room.t) : list Output :=
  match Room.allImages room !! Room.currentImageIndex room with
  | None => []
  | Some currentImage =>
      [to_room (Room.id room)
         (round_started (ImageData.image currentImage)
            (Room.currentImageIndex room) (length (Room.allImages room))
            (roster room))]
  end.

(** [player?.isHost] is truthy. *)
Definition isHostSocket (sid : string) (room : Room.t) : bool :=
  match findBySocket sid (Room.players room) with
  | Some (_, player) => Player.isHost player
  | None => false
  end.

(** The start-game handler, once the room is resolved. *)
Definition startGame (sid : string) (room : Room.t) : Outcome Room.t :=
  if negb (isHostSocket sid room) then
    ret room [callback (ack_error "Only the host can start the game")]
  else if negb (Room.syncComplete room) then
    ret room [callback (ack_error "Images not synced yet")]
  else
    let room1 :=
      Room.set_players (Player.set_score 0 <$> Room.players room)
        (Room.set_guesses (Some ∅)
           (Room.set_currentImageIndex 0
              (Room.set_gameState PLAYING room))) in
    ret room1 (callback ack_success :: sendRound room1).

(** [roundGuesses.get(player.id) === currentImage.ownerId] *)
Definition guessedCorrectly (roundGuesses : gmap Uuid Uuid)
    (currentImage : ImageData.t) (player : Player.t) : bool :=
  bool_decide (roundGuesses !! Player.id player = Some (ImageData.ownerId currentImage)).

(** The body of the [forEach] of [processRoundResults]: the player after it,
    and the entry it pushes on [results]. *)
Definition scorePlayer (roundGuesses : gmap Uuid Uuid)
    (currentImage : ImageData.t) (player : Player.t) : Player.t :=
  if guessedCorrectly roundGuesses currentImage player
  then Player.set_score (Player.score player + 100) player
  else player.

Definition resultOf (roundGuesses : gmap Uuid Uuid)
    (currentImage : ImageData.t) (player : Player.t) : Result.t :=
  let correct := guessedCorrectly roundGuesses currentImage player in
  Result.mk (Player.id player) (Player.name player)
            (if correct then 100 else 0) correct.

Definition scoreboard (players : list Player.t) : list ScoreEntry :=
  (λ p, {| se_id := Player.id p; se_name := Player.name p;
           se_score := Player.score p |}) <$> players.

(** [processRoundResults(io, room)]; [self] is the reference of [room].
    [room.guesses.get] throws when [room.guesses] is undefined; the first
    iteration of the [forEach] throws when the round has no guess map
    ([roundGuesses.get]) or no deck entry ([currentImage.ownerId]); with no
    player the loop is skipped and building [correctOwner] throws when the
    deck entry is missing. *)
Definition processRoundResults (self : RoomRef) (room : Room.t) : Outcome Room.t :=
  let imageIndex := Room.currentImageIndex room in
  let currentImage := Room.allImages room !! imageIndex in
  match Room.guesses room with
  | None => throw room []
  | Some guesses =>
      let roundGuesses := guesses !! Z.of_nat imageIndex in
      let finish (roundGuesses : gmap Uuid Uuid) (currentImage : ImageData.t) :=
        let players := scorePlayer roundGuesses currentImage <$> Room.players room in
        let results := resultOf roundGuesses currentImage <$> Room.players room in
        let scores := scoreboard players in
        let isLastRound :=
          bool_decide (length (Room.allImages room) - 1 ≤ imageIndex) in
        ret (Room.set_players players room)
            [to_room (Room.id room)
               (round_results (ImageData.ownerId currentImage)
                  (ImageData.ownerName currentImage) results scores isLastRound);
             set_timeout (advance_timer self isLastRound scores) 4000] in
      match Room.players room, roundGuesses, currentImage with
      | [], _, Some currentImage => finish ∅ currentImage
      | _ :: _, Some roundGuesses, Some currentImage => finish roundGuesses currentImage
      | _, _, _ => throw room []
      end
  end.

(** The submit-guess handler, once the room is resolved. *)
Definition submitGuess (self : RoomRef) (sid : string) (imageIndex : Z)
    (guessedPlayerId : Uuid) (room : Room.t) : Outcome Room.t :=
  match findBySocket sid (Room.players room) with
  | None => ret room []
  | Some (_, player) =>
      match Room.guesses room with
      | None => throw room []          (* room.guesses.has on undefined *)
      | Some guesses =>
          let roundGuesses :=
            <[Player.id player := guessedPlayerId]> (default ∅ (guesses !! imageIndex)) in
          let room1 :=
            Room.set_guesses (Some (<[imageIndex := roundGuesses]> guesses)) room in
          and_then
            (ret room1 [to_socket sid guess_submitted])
            (λ r, if bool_decide (length (Room.players r) ≤ size roundGuesses)
                  then processRoundResults self r
                  else ret r [])
      end
  end.

(** The new-game handler, once the room is resolved. *)
Definition newGame (roomId sid : string) (room : Room.t) : Outcome Room.t :=
  if negb (isHostSocket sid room) then ret room []
  else
    let room1 :=
      Room.mk (Room.id room) (Player.reset <$> Room.players room)
              LOBBY 0 [] false ∅ (Some ∅) in
    ret room1 [to_room roomId (new_game_started (sanitizeRoom room1))].

(** The reconnect-to-room handler, once the room is resolved. *)
Definition reconnectToRoom (roomId sid : string) (playerId : Uuid) (room : Room.t)
  : Outcome Room.t :=
  match findById playerId (Room.players room) with
  | None => ret room []
  | Some (i, player) =>
      let room1 :=
        Room.set_players (<[i := Player.set_socketId sid player]> (Room.players room)) room in
      let resume :=
        if bool_decide (Room.gameState room1 = PLAYING)
           && (0 <? length (Room.allImages room1))
        then Some {| rd_currentImage :=
                       ImageData.image <$> (Room.allImages room1 !! Room.currentImageIndex room1);
                     rd_imageIndex := Room.currentImageIndex room1;
                     rd_totalImages := length (Room.allImages room1);
                     rd_players := roster room1 |}
        else None in
      ret room1 [socket_join sid roomId;
                 to_socket sid (reconnected roomId playerId (sanitizeRoom room1)
                                  (Room.gameState room1) resume)]
  end.

(** The update-name handler, once the room is resolved. *)
Definition updateName (roomId sid name : string) (room : Room.t) : Outcome Room.t :=
  match findBySocket sid (Room.players room) with
  | None => ret room []
  | Some (i, player) =>
      let room1 :=
        Room.set_players (<[i := Player.set_name name player]> (Room.players room)) room in
      ret room1 [to_room roomId (room_updated (sanitizeRoom room1))]
  end.

(** [[...scores].sort((a, b) => b.score - a.score)]: a stable sort by
    descending score. *)
Fixpoint insertByScore (x : ScoreEntry) (l : list ScoreEntry) : list ScoreEntry :=
  match l with
  | [] => [x]
  | y :: l' => if se_score y <=? se_score x then x :: l else y :: insertByScore x l'
  end.

Definition sortScores (scores : list ScoreEntry) : list ScoreEntry :=
  foldr insertByScore [] scores.

(** The closure that [processRoundResults] hands to [setTimeout], run on the
    captured room object. *)
Definition advanceRound (isLastRound : bool) (scores : list ScoreEntry)
    (room : Room.t) : Outcome Room.t :=
  if isLastRound then
    let sortedScores := sortScores scores in
    ret (Room.set_gameState GAME_OVER room)
        [to_room (Room.id room) (game_over (head sortedScores) sortedScores)]
  else
    let room1 := Room.set_currentImageIndex (Room.currentImageIndex room + 1) room in
    ret room1 (sendRound room1).

(** The removal that the disconnect timer performs on [currentRoom] once its
    guard has passed: [currentPlayer] is the player found under the captured
    id, which is the captured [player] object.  The boolean tells whether the
    room was left empty (it is then deleted from the registry). *)
Definition removePlayer (roomId : string) (currentPlayer : Player.t)
    (currentRoom : Room.t) : Outcome Room.t * bool :=
  let remaining :=
    filter (λ p, Player.id p ≠ Player.id currentPlayer) (Room.players currentRoom) in
  let room1 := Room.set_players remaining currentRoom in
  let left :=
    [to_room roomId (player_left (Player.id currentPlayer) (Player.name currentPlayer));
     to_room roomId (room_updated (sanitizeRoom room1))] in
  match remaining with
  | [] => (ret room1 left, true)
  | first :: rest =>
      if Player.isHost currentPlayer then
        let room2 := Room.set_players (Player.set_isHost true first :: rest) room1 in
        (ret room2 (left ++ [to_room roomId (room_updated (sanitizeRoom room2))]), false)
      else (ret room1 left, false)
  end.

(** ** The server *)

Record Server := mkServer {
  (** every room object created so far; a [RoomRef] is a position here *)
  heap : list Room.t;
  (** [const rooms = new Map()] *)
  rooms : list (string * RoomRef);
  (** the number of calls of [uuidv4] so far *)
  uuidCount : nat
}.

Definition init : Server := mkServer [] [] 0.

(** [rooms.get(roomId)], with the object it refers to. *)
Definition getRoom (s : Server) (roomId : string) : option (RoomRef * Room.t) :=
  ref ← Map_get (rooms s) roomId;
  room ← heap s !! ref;
  Some (ref, room).

(** The room object [ref] after a handler mutated it. *)
Definition storeRoom (s : Server) (ref : RoomRef) (room : Room.t) : Server :=
  mkServer (<[ref := room]> (heap s)) (rooms s) (uuidCount s).

(** The common opening of the handlers: resolve the room or answer
    [notFound], then run [h] on the room object. *)
Definition onRoom (s : Server) (roomId : string) (notFound : list Output)
    (h : RoomRef → Room.t → Outcome Room.t) : Outcome Server :=
  match getRoom s roomId with
  | None => ret s notFound
  | Some (ref, room) =>
      let o := h ref room in
      mkOutcome (storeRoom s ref (next o)) (emitted o) (threw o)
  end.

(** The create-room handler. *)
Definition createRoom (sid : string) (draws : list nat) (s : Server) : Outcome Server :=
  let roomId := generateRoomCode draws in
  let playerId := uuidCount s in
  let room :=
    Room.mk roomId [Player.mk playerId sid "" true 0 0 []]
            LOBBY 0 [] false ∅ None in
  ret (mkServer (heap s ++ [room])
                (Map_set (rooms s) roomId (length (heap s)))
                (S (uuidCount s)))
      [socket_join sid roomId; to_socket sid (room_created roomId playerId)].

(** What join-room does to the room once it is resolved and in LOBBY;
    [playerId] is the value of [uuidv4()]. *)
Definition addPlayer (roomId sid name : string) (playerId : Uuid) (room : Room.t)
  : Outcome Room.t :=
  let player := Player.mk playerId sid name false 0 0 [] in
  let room1 := Room.set_players (Room.players room ++ [player]) room in
  ret room1 [socket_join sid roomId;
             to_socket sid (joined_room roomId playerId);
             to_room roomId (room_updated (sanitizeRoom room1))].

(** The join-room handler. *)
Definition joinRoom (sid roomId name : string) (s : Server) : Outcome Server :=
  match getRoom s roomId with
  | None => ret s [to_socket sid (error "Room not found")]
  | Some (ref, room) =>
      if bool_decide (Room.gameState room ≠ LOBBY) then
        ret s [to_socket sid (error "Game already in progress")]
      else
        let o := addPlayer roomId sid name (uuidCount s) room in
        mkOutcome (mkServer (<[ref := next o]> (heap s)) (rooms s) (S (uuidCount s)))
                  (emitted o) (threw o)
  end.

(** The loop of the disconnect handler over [rooms.entries()]: it arms one
    timer, for the first room that holds a player of this socket. *)
Fixpoint disconnect_scan (sid : string) (heap : list Room.t)
    (entries : list (string * RoomRef)) : list Output :=
  match entries with
  | [] => []
  | (roomId, ref) :: rest =>
      match heap !! ref ≫= (λ room, findBySocket sid (Room.players room)) with
      | Some (_, player) =>
          [set_timeout (grace_timer roomId (Player.id player) sid) (5 * 60 * 1000)]
      | None => disconnect_scan sid heap rest
      end
  end.

Definition disconnect (sid : string) (s : Server) : Outcome Server :=
  ret s (disconnect_scan sid (heap s) (rooms s)).

(** The closure that [startImageSync] hands to [setTimeout], run on the
    captured room object. *)
Definition sendBatch (index : nat) (image : string) (room : Room.t) : Outcome Room.t :=
  ret room [to_room (Room.id room)
              (sync_image_batch index (length (Room.allImages room)) image)].

(** The closure of the disconnect timer. *)
Definition fireGrace (roomId : string) (playerId : Uuid) (sid : string)
    (s : Server) : Outcome Server :=
  match getRoom s roomId with
  | None => ret s []
  | Some (ref, currentRoom) =>
      match findById playerId (Room.players currentRoom) with
      | Some (_, currentPlayer) =>
          if bool_decide (Player.socketId currentPlayer = sid) then
            let '(o, emptied) := removePlayer roomId currentPlayer currentRoom in
            mkOutcome
              (mkServer (<[ref := next o]> (heap s))
                        (if emptied then Map_delete (rooms s) roomId else rooms s)
                        (uuidCount s))
              (emitted o) (threw o)
          else ret s []
      | None => ret s []
      end
  end.

(** A closure that captured a room object runs on that object, whether it is
    still registered or not. *)
Definition onObject (s : Server) (ref : RoomRef) (h : Room.t → Outcome Room.t)
  : Outcome Server :=
  match heap s !! ref with
  | None => ret s []
  | Some room =>
      let o := h room in
      mkOutcome (storeRoom s ref (next o)) (emitted o) (threw o)
  end.

Definition fire (t : Timer) (s : Server) : Outcome Server :=
  match t with
  | grace_timer roomId playerId sid => fireGrace roomId playerId sid s
  | batch_timer ref index image => onObject s ref (sendBatch index image)
  | advance_timer ref isLastRound scores =>
      onObject s ref (advanceRound isLastRound scores)
  end.

(** What reaches the server: a command of a socket, with the outcome of the
    random draws its handler makes, a disconnection, or a timer that fires. *)
Inductive Input :=
  | create_room (sid : string) (draws : list nat)
  | join_room (sid roomId name : string)
  | reconnect_to_room (sid roomId : string) (playerId : Uuid)
  | update_name (sid roomId name : string)
  | submit_images (sid roomId : string) (images : list string) (draws : list nat)
  | images_synced (sid roomId : string) (batchIndex : Z)
  | start_game (sid roomId : string)
  | submit_guess (sid roomId : string) (imageIndex : Z) (guessedPlayerId : Uuid)
  | new_game (sid roomId : string)
  | disconnected (sid : string)
  | timer_fires (t : Timer).

Definition handle (s : Server) (i : Input) : Outcome Server :=
  match i with
  | create_room sid draws => createRoom sid draws s
  | join_room sid roomId name => joinRoom sid roomId name s
  | reconnect_to_room sid roomId playerId =>
      onRoom s roomId [] (λ _, reconnectToRoom roomId sid playerId)
  | update_name sid roomId name =>
      onRoom s roomId [] (λ _, updateName roomId sid name)
  | submit_images sid roomId images draws =>
      onRoom s roomId [callback (ack_error "Room not found")]
        (λ self, submitImages self roomId sid images draws)
  | images_synced sid roomId batchIndex =>
      onRoom s roomId [] (λ _, imagesSynced roomId sid batchIndex)
  | start_game sid roomId =>
      onRoom s roomId [callback (ack_error "Room not found")] (λ _, startGame sid)
  | submit_guess sid roomId imageIndex guessedPlayerId =>
      onRoom s roomId [] (λ self, submitGuess self sid imageIndex guessedPlayerId)
  | new_game sid roomId =>
      onRoom s roomId [] (λ _, newGame roomId sid)
  | disconnected sid => disconnect sid s
  | timer_fires t => fire t s
  end.

(** The server on a sequence of inputs.  An uncaught exception ends the
    process: the inputs after it are not handled. *)
Fixpoint run (s : Server) (inputs : list Input) : Outcome Server :=
  match inputs with
  | [] => ret s []
  | i :: rest => and_then (handle s i) (λ s', run s' rest)
  end.

(** The states the process goes through. *)
Inductive reachable : Server → Prop :=
  | reachable_init : reachable init
  | reachable_step s i :
      reachable s → threw (handle s i) = false → reachable (next (handle s i)).

(** ** The life of one room object

    Everything the server does to a room object after its creation is one of
    the handler bodies above.  [RoomOp] names them, with their arguments. *)
Inductive RoomOp :=
  | op_join (roomId sid name : string) (playerId : Uuid)
  | op_reconnect (roomId sid : string) (playerId : Uuid)
  | op_update_name (roomId sid name : string)
  | op_submit_images (roomId sid : string) (images : list string) (draws : list nat)
  | op_images_synced (roomId sid : string) (batchIndex : Z)
  | op_start_game (sid : string)
  | op_submit_guess (sid : string) (imageIndex : Z) (guessedPlayerId : Uuid)
  | op_new_game (roomId sid : string)
  | op_remove (roomId : string) (currentPlayer : Player.t)
  | op_batch (index : nat) (image : string)
  | op_advance (isLastRound : bool) (scores : list ScoreEntry).

Definition applyOp (self : RoomRef) (op : RoomOp) (room : Room.t) : Outcome Room.t :=
  match op with
  | op_join roomId sid name playerId => addPlayer roomId sid name playerId room
  | op_reconnect roomId sid playerId => reconnectToRoom roomId sid playerId room
  | op_update_name roomId sid name => updateName roomId sid name room
  | op_submit_images roomId sid images draws =>
      submitImages self roomId sid images draws room
  | op_images_synced roomId sid batchIndex => imagesSynced roomId sid batchIndex room
  | op_start_game sid => startGame sid room
  | op_submit_guess sid imageIndex guessedPlayerId =>
      submitGuess self sid imageIndex guessedPlayerId room
  | op_new_game roomId sid => newGame roomId sid room
  | op_remove roomId currentPlayer => (removePlayer roomId currentPlayer room).1
  | op_batch index image => sendBatch index image room
  | op_advance isLastRound scores => advanceRound isLastRound scores room
  end.

Fixpoint runOps (self : RoomRef) (room : Room.t) (ops : list RoomOp) : Outcome Room.t :=
  match ops with
  | [] => ret room []
  | op :: rest => and_then (applyOp self op room) (λ room', runOps self room' rest)
  end.

Definition isNewGame (op : RoomOp) : bool :=
  match op with op_new_game _ _ => true | _ => false end.

Definition isSyncComplete (o : Output) : bool :=
  match o with to_room _ sync_complete => true | _ => false end.

(** The number of sync-complete broadcasts among the outputs. *)
Definition syncCompleteCount (out : list Output) : nat :=
  length (List.filter isSyncComplete out).

(** ** Notions used by the statements *)

(** The number of players of the room with [isHost = true]. *)
Definition hostCount (room : Room.t) : nat :=
  length (filter (λ p, Player.isHost p = true) (Room.players room)).

(** What the host rule depends on: who is in the room, and who is host. *)
Definition ident (p : Player.t) : Uuid * bool := (Player.id p, Player.isHost p).

Definition skeleton (room : Room.t) : list (Uuid * bool) :=
  ident <$> Room.players room.

(** A room object is well formed in a process that issued [n] identifiers:
    its players have distinct identifiers, all issued, and if it has a
    player, exactly one is host. *)
Definition roomOK (n : nat) (room : Room.t) : Prop :=
  NoDup (skeleton room).*1 ∧
  Forall (λ e, e.1 < n) (skeleton room) ∧
  (skeleton room ≠ [] → length (filter (λ e, e.2 = true) (skeleton room)) = 1).

(** The invariant of the server: the registry refers to distinct room
    objects, each with a player, and every room object is well formed. *)
Definition invariant (s : Server) : Prop :=
  NoDup (rooms s).*2 ∧
  Forall (λ e, ∃ room, heap s !! e.2 = Some room ∧ Room.players room ≠ []) (rooms s) ∧
  Forall (roomOK (uuidCount s)) (heap s).

(** The characters of the room code alphabet. *)
Definition alphabet : list Ascii.ascii := String.list_ascii_of_string chars.

(** The (image, owner) pairs that the players of a room submitted, and those
    of a deck. *)
Definition ownedPairs (players : list Player.t) : list (string * Uuid) :=
  players ≫= (λ p, (λ image, (image, Player.id p)) <$> Player.images p).

Definition deckPairs (deck : list ImageData.t) : list (string * Uuid) :=
  (λ d, (ImageData.image d, ImageData.ownerId d)) <$> deck.

(** [flag b] is 1 when [b] holds. *)
Definition flag (b : bool) : nat := if b then 1 else 0.

(** ** Scenarios

    Concrete inputs and states on which the statements below are
    exercised. *)

(** The n-th photo of a player: a stand-in for a base64 payload. *)
Definition photo (owner : string) (n : nat) : string :=
  owner +:+ String (Ascii.ascii_of_nat (48 + n)) EmptyString.

Definition tenPhotos (owner : string) : list string := photo owner <$> seq 0 10.

(** The client acknowledges the batches 0 .. n-1. *)
Definition acknowledge (sid roomId : string) (n : nat) : list Input :=
  (λ batchIndex, images_synced sid roomId (Z.of_nat batchIndex)) <$> seq 0 n.

(** The draws that make [generateRoomCode] return "ABCDEF". *)
Definition drawsABCDEF : list nat := [0; 1; 2; 3; 4; 5].

(** One player creates a room, submits ten photos, acknowledges the ten
    batches and starts the game. *)
Definition solo_game : list Input :=
  [create_room "s1" drawsABCDEF;
   submit_images "s1" "ABCDEF" (tenPhotos "a") []]
  ++ acknowledge "s1" "ABCDEF" 10
  ++ [start_game "s1" "ABCDEF"].

(** One player creates a room and submits ten photos: every player of the
    room has ten images, and the deck is built. *)
Definition one_player_ready : list Input :=
  [create_room "s1" drawsABCDEF;
   submit_images "s1" "ABCDEF" (tenPhotos "a") []].

(** The host submits ten photos while alone in the room, so that the sync
    runs on the host's photos; then a second player joins. *)
Definition host_ready_then_guest_joins : list Input :=
  one_player_ready ++ [join_room "s2" "ABCDEF" "bob"].

(** The room after these commands: the deck holds the ten photos of the
    host. *)
Definition host_synced_guest_joined : Room.t :=
  Room.mk "ABCDEF"
    [Player.mk 0 "s1" "" true 10 0 (tenPhotos "a");
     Player.mk 1 "s2" "bob" false 0 0 []]
    LOBBY 0
    ((λ n, ImageData.mk (photo "a" n) 0 "") <$> [1; 2; 3; 4; 5; 6; 7; 8; 9; 0])
    false ∅ None.

(** One player creates a room, acknowledges a batch before any photo was
    submitted and starts the game. *)
Definition empty_deck_game : list Input :=
  [create_room "s1" drawsABCDEF;
   images_synced "s1" "ABCDEF" 0;
   start_game "s1" "ABCDEF"].

(** What the scenarios read off a room object: its phase, its round and the
    photos of its deck in order. *)
Definition glance (s : Server) (ref : RoomRef)
  : option (GameState * nat * list string) :=
  (λ room, (Room.gameState room, Room.currentImageIndex room,
            ImageData.image <$> Room.allImages room)) <$> heap s !! ref.

(** The guess of [playerId] recorded for the round [imageIndex] in the room
    object [ref]. *)
Definition recordedGuess (s : Server) (ref : RoomRef) (imageIndex : Z)
    (playerId : Uuid) : option Uuid :=
  room ← heap s !! ref;
  guesses ← Room.guesses room;
  roundGuesses ← guesses !! imageIndex;
  roundGuesses !! playerId.

(** Three players (identifiers 0, 1 and 2 on sockets s1, s2 and s3) submit
    their photos, acknowledge the thirty batches and the host starts the
    game. *)
Definition three_player_game : list Input :=
  [create_room "s1" drawsABCDEF;
   join_room "s2" "ABCDEF" "bob";
   join_room "s3" "ABCDEF" "carol";
   submit_images "s1" "ABCDEF" (tenPhotos "a") [];
   submit_images "s2" "ABCDEF" (tenPhotos "b") [];
   submit_images "s3" "ABCDEF" (tenPhotos "c") []]
  ++ acknowledge "s1" "ABCDEF" 30
  ++ acknowledge "s2" "ABCDEF" 30
  ++ acknowledge "s3" "ABCDEF" 30
  ++ [start_game "s1" "ABCDEF"].

(** In round 0 carol guesses, then leaves for good: her grace timer fires. *)
Definition carol_guesses_and_leaves : list Input :=
  [submit_guess "s3" "ABCDEF" 0 1;
   disconnected "s3";
   timer_fires (grace_timer "ABCDEF" 2 "s3")].

(** A room in round 0 of a game, with a deck of two photos of player 0;
    player 0 guessed 0, player 1 guessed 1 and player 2 did not guess. *)
Definition room_in_round : Room.t :=
  Room.mk "ABCDEF"
    [Player.mk 0 "s1" "ann" true 10 300 []; Player.mk 1 "s2" "bob" false 10 100 [];
     Player.mk 2 "s3" "carol" false 10 0 []]
    PLAYING 0
    [ImageData.mk "a0" 0 "ann"; ImageData.mk "a1" 0 "ann"]
    true ∅ (Some {[ 0%Z := {[ 0 := 0; 1 := 1 ]} ]}).

(** A room that waits for the acknowledgments of its only player, with a
    deck of two photos; the player acknowledged the index -3 so far. *)
Definition room_in_sync : Room.t :=
  Room.mk "ABCDEF"
    [Player.mk 0 "s1" "ann" true 10 0 (tenPhotos "a")]
    LOBBY 0
    [ImageData.mk "a0" 0 "ann"; ImageData.mk "a1" 0 "ann"]
    false {[ 0 := {[ (-3)%Z ]} ]} None.

(** ** Notions used by the further properties *)

(** The room object that create-room allocates. *)
Definition newRoom (roomId sid : string) (playerId : Uuid) : Room.t :=
  Room.mk roomId [Player.mk playerId sid "" true 0 0 []] LOBBY 0 [] false ∅ None.

(** What a property of players must survive to hold of every player of every
    room: the player literals of create-room and join-room and the field
    updates that the handlers make. *)
Record PlayerInvariant (Q : Player.t → Prop) : Prop := {
  pi_new playerId sid name isHost : Q (Player.mk playerId sid name isHost 0 0 []);
  pi_socketId v p : Q p → Q (Player.set_socketId v p);
  pi_name v p : Q p → Q (Player.set_name v p);
  pi_isHost v p : Q p → Q (Player.set_isHost v p);
  pi_images v p : Q p → Q (Player.set_images v p);
  pi_score_zero p : Q p → Q (Player.set_score 0 p);
  pi_score_add p : Q p → Q (Player.set_score (Player.score p + 100) p);
  pi_reset p : Q p → Q (Player.reset p)
}.

(** The phase discipline of a room object: RESULTS is never stored, and a
    room that is PLAYING has completed its sync and has a guess map. *)
Definition phaseOK (room : Room.t) : Prop :=
  Room.gameState room ≠ RESULTS ∧
  (Room.gameState room = PLAYING →
   Room.syncComplete room = true ∧ is_Some (Room.guesses room)).

(** The registry holds a code once, and a code refers to a room object that
    carries it. *)
Definition registryOK (s : Server) : Prop :=
  NoDup (rooms s).*1 ∧
  Forall (λ e, ∃ room, heap s !! e.2 = Some room ∧ Room.id room = e.1) (rooms s).

(** The commands that act for the player bound to the socket: the socket
    and the room code they carry. *)
Definition commandOf (i : Input) : option (string * string) :=
  match i with
  | update_name sid roomId _ | submit_images sid roomId _ _
  | images_synced sid roomId _ | start_game sid roomId
  | submit_guess sid roomId _ _ | new_game sid roomId => Some (sid, roomId)
  | _ => None
  end.

(** The room code that an input carries and resolves through the registry. *)
Definition roomCodeOf (i : Input) : option string :=
  match i with
  | join_room _ roomId _ | reconnect_to_room _ roomId _ | update_name _ roomId _
  | submit_images _ roomId _ _ | images_synced _ roomId _ | start_game _ roomId
  | submit_guess _ roomId _ _ | new_game _ roomId
  | timer_fires (grace_timer roomId _ _) => Some roomId
  | _ => None
  end.

(** Scores in descending order. *)
Fixpoint descending (l : list ScoreEntry) : Prop :=
  match l with
  | [] => True
  | x :: l' => Forall (λ y, se_score y ≤ se_score x) l' ∧ descending l'
  end.

(** ** The session store of the client

    [saveGameSession], [getGameSession] and [clearGameSession] of
    [src/hooks/useSocket.ts].  They keep one item of [localStorage], under
    [STORAGE_KEY]; nothing else writes that key, so the item is absent or
    the JSON text of a session, which [JSON.parse] turns back into the
    session.  The item is modelled by the session it encodes.  [Date.now()]
    is an argument, in milliseconds.  Each [localStorage] call may throw
    (the functions catch it); a flag per call says whether it does. *)
Module Session.
Record t := mk { roomId : string; playerId : string; timestamp : Z }.
End Session.

Definition TWO_HOURS : Z := 2 * 60 * 60 * 1000.

Definition saveGameSession (setItemThrows : bool) (now : Z) (roomId playerId : string)
    (item : option Session.t) : option Session.t :=
  if setItemThrows then item else Some (Session.mk roomId playerId now).

(** The session returned ([null] is [None]) and the item left. *)
Definition getGameSession (getItemThrows removeItemThrows : bool) (now : Z)
    (item : option Session.t) : option Session.t * option Session.t :=
  if getItemThrows then (None, item)
  else match item with
       | None => (None, item)
       | Some session =>
           if (TWO_HOURS <? now - Session.timestamp session)%Z then
             if removeItemThrows then (None, item) else (None, None)
           else (Some session, item)
       end.

Definition clearGameSession (removeItemThrows : bool) (item : option Session.t)
  : option Session.t :=
  if removeItemThrows then item else None.

(** ** Further scenarios *)

(** A room of two in the lobby: player 0 (host, socket s1) and player 1
    (bob, socket s2). *)
Definition two_in_lobby : list Input :=
  [create_room "s1" drawsABCDEF; join_room "s2" "ABCDEF" "bob"].

Definition lobby_of_two : Room.t :=
  Room.mk "ABCDEF"
    [Player.mk 0 "s1" "" true 0 0 []; Player.mk 1 "s2" "bob" false 0 0 []]
    LOBBY 0 [] false ∅ None.

(** * Properties *)

(** ** The registry as a map *)

Section JsMapFacts.
Context {V : Type}.
Implicit Types (m : list (string * V)) (k : string) (v : V).

Lemma Map_get_set_eq m k v : Map_get (Map_set m k v) k = Some v.
Proof.
  induction m as [|[k' v'] m IH]; simpl.
  - by rewrite decide_True.
  - destruct (decide (k' = k)) as [->|Hne]; simpl.
    + by rewrite decide_True.
    + by rewrite decide_False.
Qed.

Lemma Map_get_set_ne m k k' v : k ≠ k' → Map_get (Map_set m k v) k' = Map_get m k'.
Proof.
  intros Hne. induction m as [|[k0 v0] m IH]; simpl.
  - by rewrite decide_False.
  - destruct (decide (k0 = k)) as [->|Hne0]; simpl.
    + by rewrite !decide_False.
    + destruct (decide (k0 = k')); done.
Qed.

Lemma Map_get_elem_of m k v : Map_get m k = Some v → (k, v) ∈ m.
Proof.
  induction m as [|[k0 v0] m IH]; simpl; [done|].
  destruct (decide (k0 = k)) as [->|Hne].
  - intros [= ->]. left.
  - intros. right. auto.
Qed.

Lemma Map_set_Forall (P : string * V → Prop) m k v :
  Forall P m → P (k, v) → Forall P (Map_set m k v).
Proof.
  intros Hm Hkv. induction Hm as [|[k0 v0] m H0 Hm IH]; simpl.
  - by constructor.
  - destruct (decide (k0 = k)); constructor; auto.
Qed.

Lemma Map_set_values m k v x : x ∈ (Map_set m k v).*2 → x = v ∨ x ∈ m.*2.
Proof.
  induction m as [|[k0 v0] m IH]; simpl.
  - intros ->%list_elem_of_singleton. by left.
  - destruct (decide (k0 = k)); simpl; rewrite !elem_of_cons; tauto.
Qed.

(** A value that the map does not hold yet can be set without creating a
    duplicate value. *)
Lemma Map_set_NoDup m k v : NoDup m.*2 → v ∉ m.*2 → NoDup (Map_set m k v).*2.
Proof.
  induction m as [|[k0 v0] m IH]; simpl.
  - intros _ _. apply NoDup_singleton.
  - intros [Hv0 Hnd]%NoDup_cons [Hne Hv]%not_elem_of_cons.
    destruct (decide (k0 = k)); simpl; apply NoDup_cons.
    + done.
    + split; [|by apply IH].
      intros [->|?]%Map_set_values; done.
Qed.

Lemma Map_delete_sublist m k : Map_delete m k `sublist_of` m.
Proof.
  induction m as [|[k0 v0] m IH]; simpl; [done|].
  destruct (decide (k0 = k)); [by apply sublist_cons|by apply sublist_skip].
Qed.

(** [delete] removes the entry that [get] returns. *)
Lemma Map_delete_NoDup m k v :
  Map_get m k = Some v → NoDup m.*2 →
  NoDup (Map_delete m k).*2 ∧ v ∉ (Map_delete m k).*2.
Proof.
  induction m as [|[k0 v0] m IH]; simpl; [done|].
  intros Hget [Hv0 Hnd]%NoDup_cons.
  destruct (decide (k0 = k)) as [->|Hne]; simpl.
  - by simplify_eq.
  - destruct (IH Hget Hnd) as [IH1 IH2].
    assert (Hsub : (Map_delete m k).*2 `sublist_of` m.*2)
      by apply fmap_sublist, Map_delete_sublist.
    split.
    + apply NoDup_cons. split; [|done].
      intros Hin. apply Hv0. by eapply elem_of_sublist.
    + apply not_elem_of_cons. split; [|done].
      intros ->. apply Hv0.
      apply Map_get_elem_of in Hget.
      by apply (list_elem_of_fmap_2 snd) in Hget.
Qed.

End JsMapFacts.

(** ** Small facts about the handlers *)

Lemma and_then_ret {S} (s : S) out k :
  and_then (ret s out) k = mkOutcome (next (k s)) (out ++ emitted (k s)) (threw (k s)).
Proof. done. Qed.

Lemma findBySocket_lookup sid players i player :
  findBySocket sid players = Some (i, player) → players !! i = Some player.
Proof. intros H. by apply list_find_Some in H as (? & _). Qed.

Lemma findById_lookup playerId players i player :
  findById playerId players = Some (i, player) →
  players !! i = Some player ∧ Player.id player = playerId.
Proof. intros H. apply list_find_Some in H as (? & ? & _). done. Qed.

Lemma getRoom_Some s roomId ref room :
  getRoom s roomId = Some (ref, room) ↔
  Map_get (rooms s) roomId = Some ref ∧ heap s !! ref = Some room.
Proof.
  unfold getRoom. destruct (Map_get (rooms s) roomId) as [r|]; simpl.
  - destruct (heap s !! r) as [room0|] eqn:E; simpl.
    + split; [by intros [= <- <-]|]. intros [[= <-] ?]. congruence.
    + split; [done|]. intros [[= <-] ?]. congruence.
  - split; [done|]. by intros [? _].
Qed.

(** Writing back the object that is already there changes nothing. *)
Lemma storeRoom_id s ref room : heap s !! ref = Some room → storeRoom s ref room = s.
Proof.
  intros H. unfold storeRoom. rewrite list_insert_id by done. by destruct s.
Qed.

(** A run that does not throw only goes through reachable states. *)
Lemma run_reachable s inputs :
  reachable s → threw (run s inputs) = false → reachable (next (run s inputs)).
Proof.
  revert s. induction inputs as [|i inputs IH]; intros s Hs; cbn [run].
  - done.
  - unfold and_then. destruct (threw (handle s i)) eqn:Hi; [congruence|].
    cbn [next threw]. intros Hrest. apply IH; [|done].
    by apply reachable_step.
Qed.

(** ** Room codes *)

Lemma string_length_app (s1 s2 : string) :
  String.length (s1 +:+ s2) = String.length s1 + String.length s2.
Proof. induction s1 as [|c s1 IH]; simpl; [done|]. by rewrite IH. Qed.

Lemma list_ascii_app (s1 s2 : string) :
  String.list_ascii_of_string (s1 +:+ s2)
  = String.list_ascii_of_string s1 ++ String.list_ascii_of_string s2.
Proof. induction s1 as [|c s1 IH]; simpl; [done|]. by rewrite IH. Qed.

Lemma string_get_elem_of (s : string) n c :
  String.get n s = Some c → c ∈ String.list_ascii_of_string s.
Proof.
  revert n. induction s as [|c0 s IH]; intros n; simpl; [done|].
  destruct n as [|n].
  - intros [= ->]. left.
  - intros H. right. eauto.
Qed.

Lemma string_get_is_Some (s : string) n :
  n < String.length s → is_Some (String.get n s).
Proof.
  revert n. induction s as [|c0 s IH]; intros n; simpl; [lia|].
  destruct n as [|n]; [eauto|]. intros. apply IH. lia.
Qed.

Lemma randomIndex_lt draws k n : 0 < n → randomIndex draws k n < n.
Proof. intros Hn. unfold randomIndex. apply Nat.mod_upper_bound. lia. Qed.

(** Each iteration of [generateRoomCode] appends one character of the
    alphabet. *)
Lemma charAt_chars draws k :
  ∃ c, charAt chars (randomIndex draws k (String.length chars)) = String c EmptyString
       ∧ c ∈ alphabet.
Proof.
  assert (Hlt : randomIndex draws k (String.length chars) < String.length chars).
  { apply randomIndex_lt. simpl. lia. }
  destruct (string_get_is_Some _ _ Hlt) as [c Hc].
  exists c. unfold charAt. rewrite Hc. split; [done|].
  by eapply string_get_elem_of.
Qed.

Lemma generateRoomCode_loop_shape n k draws code :
  String.length (generateRoomCode_loop n k draws code) = String.length code + n ∧
  (Forall (.∈ alphabet) (String.list_ascii_of_string code) →
   Forall (.∈ alphabet)
     (String.list_ascii_of_string (generateRoomCode_loop n k draws code))).
Proof.
  revert k code. induction n as [|n IH]; intros k code; cbn [generateRoomCode_loop].
  - split; [lia|done].
  - destruct (charAt_chars draws k) as (c & Hc & Hin).
    destruct (IH (S k) (code +:+ charAt chars (randomIndex draws k (String.length chars))))
      as [Hlen Hall].
    split.
    + rewrite Hlen, string_length_app, Hc. simpl. lia.
    + intros Hcode. apply Hall. rewrite list_ascii_app, Hc. simpl.
      apply Forall_app. split; [done|]. by constructor.
Qed.

(** A room code has six characters, all of the alphabet, whatever the
    draws. *)
Lemma generateRoomCode_shape draws :
  String.length (generateRoomCode draws) = 6 ∧
  Forall (.∈ alphabet) (String.list_ascii_of_string (generateRoomCode draws)).
Proof.
  destruct (generateRoomCode_loop_shape 6 0 draws "") as [H1 H2].
  split; [done|]. apply H2. constructor.
Qed.

(** ** Deck assembly and shuffle *)

Lemma swap_Permutation {A} (a : list A) i j : swap a i j ≡ₚ a.
Proof.
  unfold swap.
  destruct (a !! j) as [aj|] eqn:Hj; [|done].
  destruct (a !! i) as [ai|] eqn:Hi; [|done].
  by apply Permutation_insert_swap.
Qed.

Lemma swap_length {A} (a : list A) i j : length (swap a i j) = length a.
Proof. apply Permutation_length, swap_Permutation. Qed.

(** With both indices inside the array, [swap] is the exchange. *)
Lemma swap_inside {A} (a : list A) i j :
  i < length a → j < length a →
  ∃ ai aj, a !! i = Some ai ∧ a !! j = Some aj ∧
           swap a i j = <[j := ai]> (<[i := aj]> a).
Proof.
  intros [ai Hi]%lookup_lt_is_Some_2 [aj Hj]%lookup_lt_is_Some_2.
  exists ai, aj. unfold swap. by rewrite Hi, Hj.
Qed.

(** In an iteration of the shuffle at an index [i] inside the array, the
    drawn index [j] is at most [i], and the next index is inside the array
    that the swap leaves. *)
Lemma shuffle_from_indices {A} i' k draws (a : list A) :
  S i' < length a →
  randomIndex draws k (S i' + 1) ≤ S i' ∧
  i' < length (swap a (S i') (randomIndex draws k (S i' + 1))).
Proof.
  intros Hi. split.
  - pose proof (randomIndex_lt draws k (S i' + 1)). lia.
  - rewrite swap_length. lia.
Qed.

Lemma shuffle_from_Permutation {A} i k draws (a : list A) :
  shuffle_from i k draws a ≡ₚ a.
Proof.
  revert k a. induction i as [|i IH]; intros k a; simpl; [done|].
  rewrite IH. apply swap_Permutation.
Qed.

Lemma shuffle_Permutation {A} draws (a : list A) : shuffle draws a ≡ₚ a.
Proof. apply shuffle_from_Permutation. Qed.

Lemma deckPairs_combineImages players :
  deckPairs (combineImages players) = ownedPairs players.
Proof.
  unfold deckPairs, combineImages, ownedPairs.
  induction players as [|p players IH]; [done|].
  rewrite !bind_cons, fmap_app, IH. f_equal.
  unfold tagImages. rewrite <-list_fmap_compose. done.
Qed.

(** C3.  Whatever the random draws, the deck that [startImageSync] leaves in
    the room is a permutation of the concatenation of the players' tagged
    images: the multiset of (image, owner) pairs of the deck is the multiset
    of the pairs that the players submitted. *)
Theorem startImageSync_deck_is_permutation self draws room :
  let deck := Room.allImages (next (startImageSync self draws room)) in
  deck ≡ₚ combineImages (Room.players room) ∧
  deckPairs deck ≡ₚ ownedPairs (Room.players room).
Proof.
  simpl. split.
  - apply shuffle_Permutation.
  - rewrite <-deckPairs_combineImages. unfold deckPairs.
    apply fmap_Permutation, shuffle_Permutation.
Qed.

(** ** Round scoring *)

(** C6.  At a round resolution (the guess map of the current round and its
    deck entry exist), every present player whose recorded guess is the true
    owner of the round image gets exactly 100 added to the cumulative score
    and a result marked correct with 100 points; every other player (another
    guess, or none recorded) keeps the score and gets a result marked
    incorrect with 0 points.  The scoreboard carries the new scores. *)
Theorem processRoundResults_scoring self room guesses roundGuesses currentImage i player :
  Room.guesses room = Some guesses →
  guesses !! Z.of_nat (Room.currentImageIndex room) = Some roundGuesses →
  Room.allImages room !! Room.currentImageIndex room = Some currentImage →
  Room.players room !! i = Some player →
  let o := processRoundResults self room in
  let points :=
    if decide (roundGuesses !! Player.id player = Some (ImageData.ownerId currentImage))
    then 100 else 0 in
  threw o = false ∧
  Room.players (next o) !! i
    = Some (Player.set_score (Player.score player + points) player) ∧
  ∃ results scores isLastRound,
    emitted o =
      [to_room (Room.id room)
         (round_results (ImageData.ownerId currentImage)
            (ImageData.ownerName currentImage) results scores isLastRound);
       set_timeout (advance_timer self isLastRound scores) 4000] ∧
    results !! i
      = Some (Result.mk (Player.id player) (Player.name player) points
                        (bool_decide (points = 100))) ∧
    scores !! i
      = Some {| se_id := Player.id player; se_name := Player.name player;
                se_score := Player.score player + points |}.
Proof.
  intros Hg Hrg Himg Hp. unfold processRoundResults.
  rewrite Hg, Hrg, Himg.
  destruct (Room.players room) as [|p0 ps] eqn:Hps; [done|].
  cbn zeta. rewrite <-Hps in *. clear Hps p0 ps.
  assert (Hsc : scorePlayer roundGuesses currentImage player
           = Player.set_score
               (Player.score player +
                (if decide (roundGuesses !! Player.id player
                            = Some (ImageData.ownerId currentImage))
                 then 100 else 0)) player).
  { unfold scorePlayer, guessedCorrectly.
    case_bool_decide; case_decide; try done.
    destruct player; unfold Player.set_score; simpl. f_equal. lia. }
  split; [done|]. split.
  { simpl. by rewrite list_lookup_fmap, Hp, <-Hsc. }
  eexists _, _, _. split; [reflexivity|]. split.
  - rewrite list_lookup_fmap, Hp. simpl. unfold resultOf, guessedCorrectly.
    case_bool_decide; case_decide; done.
  - unfold scoreboard. rewrite !list_lookup_fmap, Hp. simpl. by rewrite Hsc.
Qed.

Lemma processRoundResults_scoring_witness :
  Room.guesses room_in_round = Some {[ 0%Z := {[ 0 := 0; 1 := 1 ]} ]} ∧
  ({[ 0%Z := {[ 0 := 0; 1 := 1 ]} ]} : gmap Z (gmap nat nat))
    !! Z.of_nat (Room.currentImageIndex room_in_round)
    = Some {[ 0 := 0; 1 := 1 ]} ∧
  Room.allImages room_in_round !! Room.currentImageIndex room_in_round
    = Some (ImageData.mk "a0" 0 "ann") ∧
  Room.players room_in_round !! 0 = Some (Player.mk 0 "s1" "ann" true 10 300 []) ∧
  Room.players (next (processRoundResults 0 room_in_round)) !! 0
    = Some (Player.mk 0 "s1" "ann" true 10 400 []).
Proof.
  split; [reflexivity|]. split; [reflexivity|].
  split; [reflexivity|]. split; [reflexivity|].
  destruct (processRoundResults_scoring 0 room_in_round
              {[ 0%Z := {[ 0 := 0; 1 := 1 ]} ]} {[ 0 := 0; 1 := 1 ]}
              (ImageData.mk "a0" 0 "ann") 0 (Player.mk 0 "s1" "ann" true 10 300 [])
              eq_refl eq_refl eq_refl eq_refl) as (_ & Hscore & _).
  exact Hscore.
Defined.

(** ** Starting a game *)

(** C5.  While [syncComplete] is false, start-game from the host is answered
    with the acknowledgment [{error: "Images not synced yet"}] and nothing
    else happens: the server state, and with it the room ([gameState],
    [currentImageIndex], [guesses], every score), is what it was, and no
    round is dispatched. *)
Theorem start_game_before_sync s sid roomId ref room :
  getRoom s roomId = Some (ref, room) →
  isHostSocket sid room = true →
  Room.syncComplete room = false →
  let o := handle s (start_game sid roomId) in
  emitted o = [callback (ack_error "Images not synced yet")] ∧
  threw o = false ∧
  next o = s ∧
  getRoom (next o) roomId = Some (ref, room).
Proof.
  intros Hget Hhost Hsync. simpl. unfold onRoom. rewrite Hget.
  unfold startGame. rewrite Hhost, Hsync. simpl.
  apply getRoom_Some in Hget as [? ?].
  rewrite storeRoom_id by done. split_and!; try done.
  by apply getRoom_Some.
Qed.

Lemma start_game_before_sync_witness :
  let s := next (createRoom "s1" drawsABCDEF init) in
  let room := Room.mk "ABCDEF" [Player.mk 0 "s1" "" true 0 0 []]
                      LOBBY 0 [] false ∅ None in
  getRoom s "ABCDEF" = Some (0, room) ∧
  isHostSocket "s1" room = true ∧
  Room.syncComplete room = false ∧
  emitted (handle s (start_game "s1" "ABCDEF"))
    = [callback (ack_error "Images not synced yet")] ∧
  next (handle s (start_game "s1" "ABCDEF")) = s.
Proof.
  intros s room.
  assert (Hget : getRoom s "ABCDEF" = Some (0, room)) by reflexivity.
  assert (Hhost : isHostSocket "s1" room = true) by reflexivity.
  assert (Hsync : Room.syncComplete room = false) by reflexivity.
  destruct (start_game_before_sync s "s1" "ABCDEF" 0 room Hget Hhost Hsync)
    as (Hout & _ & Hnext & _).
  split; [exact Hget|]. split; [exact Hhost|]. split; [exact Hsync|].
  split; [exact Hout|exact Hnext].
Defined.

(** ** Acknowledgments *)

(** The reported numerator is the sum of the sizes of the players' sets. *)
Lemma totalSynced_sum room :
  totalSynced (playerProgress room) = sum_list (syncedCount room <$> Room.players room).
Proof.
  unfold totalSynced, playerProgress.
  assert (H : ∀ l a,
    foldl (λ sum p, sum + prog_synced p) a
      ((λ p, {| prog_id := Player.id p; prog_name := Player.name p;
                prog_synced := syncedCount room p;
                prog_total := length (Room.allImages room) |}) <$> l)
    = a + sum_list (syncedCount room <$> l)).
  { induction l as [|p l IH]; intros a; simpl; [lia|].
    rewrite IH. symmetry. apply Nat.add_assoc. }
  by rewrite H.
Qed.

Lemma allSynced_Forall room :
  allSynced room = true ↔
  Forall (λ p, length (Room.allImages room) ≤ syncedCount room p) (Room.players room).
Proof.
  unfold allSynced. induction (Room.players room) as [|p l IH]; simpl.
  - split; [constructor|done].
  - rewrite andb_true_iff, Forall_cons, IH, Nat.leb_le. done.
Qed.

(** C10.  images-synced from a bound player accepts every [batchIndex],
    whether or not it is a deck position: the index is inserted into the
    set of the player, the size of that set is the synced count of the
    player, the sum of the sizes is the numerator of the progress that is
    broadcast, and sync-complete is broadcast exactly when every set has at
    least deck-length many elements and the completion flag was unset.  No
    step looks at which indices the sets hold. *)
Theorem imagesSynced_counts_any_index roomId sid batchIndex room i player :
  findBySocket sid (Room.players room) = Some (i, player) →
  let o := imagesSynced roomId sid batchIndex room in
  let acked := {[batchIndex]} ∪ default ∅ (Room.syncProgress room !! Player.id player) in
  let total := length (Room.allImages room) in
  threw o = false ∧
  Room.syncProgress (next o) = <[Player.id player := acked]> (Room.syncProgress room) ∧
  syncedCount (next o) player = size acked ∧
  head (emitted o)
    = Some (to_room roomId
              (sync_progress (sum_list (syncedCount (next o) <$> Room.players room))
                             (total * length (Room.players room))
                             (playerProgress (next o)))) ∧
  (to_room roomId sync_complete ∈ emitted o ↔
     Forall (λ p, total ≤ syncedCount (next o) p) (Room.players room) ∧
     Room.syncComplete room = false).
Proof.
  intros Hfind. unfold imagesSynced. rewrite Hfind. cbn zeta.
  set (room1 := Room.set_syncProgress _ room).
  pose proof (allSynced_Forall room1) as Hall.
  pose proof (totalSynced_sum room1) as Hsum.
  assert (Hcount : syncedCount room1 player
                   = size ({[batchIndex]} ∪ default ∅ (Room.syncProgress room !! Player.id player))).
  { unfold syncedCount, room1. simpl. by rewrite lookup_insert_eq. }
  destruct (allSynced room1 && negb (Room.syncComplete room1)) eqn:Hc.
  - apply andb_true_iff in Hc as [Hc1 Hc2]. apply negb_true_iff in Hc2.
    split_and!; try done.
    + simpl. by rewrite Hsum.
    + split; [|intros _; simpl; rewrite !elem_of_cons; auto].
      intros _. split; [by apply Hall|done].
  - split_and!; try done.
    + simpl. by rewrite Hsum.
    + split.
      * simpl. intros [=]%list_elem_of_singleton.
      * intros [Hf Hs]. apply Hall in Hf. simpl in Hc, Hf.
        change (Room.syncComplete room1) with (Room.syncComplete room) in Hc.
        rewrite Hf, Hs in Hc. done.
Qed.

(** On a deck of two photos, a player who acknowledged -3 and now
    acknowledges 99 completes the sync; the batches 0 and 1 were never
    acknowledged. *)
Lemma imagesSynced_counts_any_index_witness :
  findBySocket "s1" (Room.players room_in_sync)
    = Some (0, Player.mk 0 "s1" "ann" true 10 0 (tenPhotos "a")) ∧
  Room.syncProgress (next (imagesSynced "ABCDEF" "s1" 99 room_in_sync)) !! 0
    = Some {[ 99%Z; (-3)%Z ]} ∧
  to_room "ABCDEF" sync_complete ∈ emitted (imagesSynced "ABCDEF" "s1" 99 room_in_sync).
Proof.
  assert (Hfind : findBySocket "s1" (Room.players room_in_sync)
            = Some (0, Player.mk 0 "s1" "ann" true 10 0 (tenPhotos "a")))
    by reflexivity.
  destruct (imagesSynced_counts_any_index "ABCDEF" "s1" 99 room_in_sync _ _ Hfind)
    as (_ & Hprog & _ & _ & Hdone).
  split; [exact Hfind|]. split.
  - rewrite Hprog. reflexivity.
  - apply Hdone. split; [|reflexivity].
    repeat constructor.
Defined.

(** ** The host rule *)

(** *** Handlers that leave the roster alone *)

Lemma skeleton_fmap (f : Player.t → Player.t) room players' :
  (∀ p, ident (f p) = ident p) →
  players' = f <$> Room.players room →
  ident <$> players' = skeleton room.
Proof.
  intros Hf ->. unfold skeleton. rewrite <-list_fmap_compose.
  apply list_fmap_ext. intros ? p _. apply Hf.
Qed.

Lemma skeleton_insert (f : Player.t → Player.t) room i player :
  (∀ p, ident (f p) = ident p) →
  Room.players room !! i = Some player →
  ident <$> (<[i := f player]> (Room.players room)) = skeleton room.
Proof.
  intros Hf Hi. unfold skeleton. rewrite list_fmap_insert, Hf.
  apply list_insert_id. by rewrite list_lookup_fmap, Hi.
Qed.

Lemma processRoundResults_skeleton self room :
  skeleton (next (processRoundResults self room)) = skeleton room.
Proof.
  unfold processRoundResults.
  destruct (Room.guesses room) as [g|]; [|done].
  destruct (Room.players room) as [|p ps] eqn:Hps.
  - destruct (Room.allImages room !! _); simpl; [|done].
    unfold skeleton. simpl. by rewrite Hps.
  - destruct (g !! _) as [rg|]; [|done].
    destruct (Room.allImages room !! _) as [img|]; [|done].
    rewrite <-Hps. simpl.
    eapply skeleton_fmap; [|done].
    intros q. unfold scorePlayer. by destruct (guessedCorrectly _ _ _).
Qed.

Lemma applyOp_skeleton self op room :
  match op with
  | op_join _ _ _ _ | op_remove _ _ => True
  | _ => skeleton (next (applyOp self op room)) = skeleton room
  end.
Proof.
  destruct op; simpl; try done.
  - unfold reconnectToRoom.
    destruct (findById _ _) as [[i player]|] eqn:Hf; [|done].
    apply findById_lookup in Hf as [Hi _]. simpl.
    by apply (skeleton_insert (Player.set_socketId sid)).
  - unfold updateName.
    destruct (findBySocket _ _) as [[i player]|] eqn:Hf; [|done].
    apply findBySocket_lookup in Hf. simpl.
    by apply (skeleton_insert (Player.set_name name)).
  - unfold submitImages.
    destruct (findBySocket _ _) as [[i player]|] eqn:Hf; [|done].
    apply findBySocket_lookup in Hf. rewrite and_then_ret.
    destruct (forallb _ _); simpl;
      by apply (skeleton_insert (Player.set_images images)).
  - unfold imagesSynced.
    destruct (findBySocket _ _) as [[i player]|]; [|done].
    cbn zeta. by destruct (_ && _).
  - unfold startGame.
    destruct (negb (isHostSocket _ _)); [done|].
    destruct (negb (Room.syncComplete room)); [done|]. simpl.
    by eapply (skeleton_fmap (Player.set_score 0)).
  - unfold submitGuess.
    destruct (findBySocket _ _) as [[i player]|]; [|done].
    destruct (Room.guesses room); [|done].
    rewrite and_then_ret. case_bool_decide; [|done].
    cbn [next]. by rewrite processRoundResults_skeleton.
  - unfold newGame.
    destruct (negb (isHostSocket _ _)); [done|]. simpl.
    by eapply (skeleton_fmap Player.reset).
  - unfold advanceRound. by destruct isLastRound.
Qed.

(** *** Well-formed rooms *)

Lemma list_filter_fmap_pre {A B} (f : A → B) (P : B → Prop) `{∀ x, Decision (P x)}
    (l : list A) :
  filter P (f <$> l) = f <$> filter (λ x, P (f x)) l.
Proof.
  induction l as [|x l IH]; [done|].
  rewrite fmap_cons, !filter_cons. simpl.
  destruct (decide (P (f x))); rewrite IH; done.
Qed.

Lemma hostCount_skeleton room :
  hostCount room = length (filter (λ e, e.2 = true) (skeleton room)).
Proof.
  unfold hostCount, skeleton.
  by rewrite list_filter_fmap_pre, length_fmap.
Qed.

Lemma skeleton_nil room : skeleton room = [] ↔ Room.players room = [].
Proof.
  unfold skeleton. split; [apply fmap_nil_inv|]. by intros ->.
Qed.

Lemma roomOK_skeleton n room room' :
  skeleton room' = skeleton room → roomOK n room → roomOK n room'.
Proof. unfold roomOK. by intros ->. Qed.

Lemma roomOK_mono n m room : n ≤ m → roomOK n room → roomOK m room.
Proof.
  intros Hnm (Hnd & Hlt & Hhost). split_and!; [done| |done].
  eapply Forall_impl; [done|]. simpl. intros; lia.
Qed.

Lemma roomOK_hostCount n room :
  roomOK n room →
  hostCount room ≤ 1 ∧ (Room.players room ≠ [] → hostCount room = 1).
Proof.
  intros (_ & _ & Hhost). rewrite hostCount_skeleton.
  destruct (decide (skeleton room = [])) as [E|E].
  - rewrite E. simpl. split; [lia|]. intros Hne. by apply skeleton_nil in E.
  - rewrite Hhost by done. split; [lia|done].
Qed.

Lemma roomOK_new n roomId sid :
  roomOK (S n)
    (Room.mk roomId [Player.mk n sid "" true 0 0 []] LOBBY 0 [] false ∅ None).
Proof.
  unfold roomOK, skeleton. simpl. split_and!.
  - apply NoDup_singleton.
  - by repeat constructor.
  - done.
Qed.

Lemma roomOK_addPlayer n roomId sid name room :
  roomOK n room → Room.players room ≠ [] →
  roomOK (S n) (next (addPlayer roomId sid name n room)).
Proof.
  intros (Hnd & Hlt & Hhost) Hne.
  unfold roomOK, skeleton in *. simpl.
  rewrite !fmap_app, filter_app, length_app. simpl.
  split_and!.
  - apply NoDup_app. split_and!; [done| |apply NoDup_singleton].
    intros x Hx ->%list_elem_of_singleton.
    apply list_elem_of_fmap in Hx as (e & Heq & He).
    rewrite Forall_forall in Hlt. apply Hlt in He. simpl in *. lia.
  - apply Forall_app. split.
    + eapply Forall_impl; [done|]. simpl. intros; lia.
    + by repeat constructor.
  - intros _. rewrite Hhost; [done|].
    intros E. by apply fmap_nil_inv in E.
Qed.

Lemma NoDup_fst_inj {A B} (l : list (A * B)) e e' :
  NoDup l.*1 → e ∈ l → e' ∈ l → e.1 = e'.1 → e = e'.
Proof.
  induction l as [|x l IH]; simpl; [by intros _ ?%elem_of_nil|].
  intros [Hx Hnd]%NoDup_cons He He' Heq.
  apply elem_of_cons in He as [->|He]; apply elem_of_cons in He' as [->|He'].
  - done.
  - exfalso. apply Hx. rewrite Heq. by apply list_elem_of_fmap_2.
  - exfalso. apply Hx. rewrite <-Heq. by apply list_elem_of_fmap_2.
  - by apply IH.
Qed.

Lemma skeleton_filter_id pid room :
  (λ p, (Player.id p, Player.isHost p))
    <$> filter (λ p, Player.id p ≠ pid) (Room.players room)
  = filter (λ e, e.1 ≠ pid) (skeleton room).
Proof. unfold skeleton. by rewrite list_filter_fmap_pre. Qed.

Lemma list_filter_swap {A} (P Q : A → Prop)
    `{∀ x, Decision (P x)} `{∀ x, Decision (Q x)} (l : list A) :
  filter P (filter Q l) = filter Q (filter P l).
Proof.
  induction l as [|x l IH]; [done|].
  rewrite !(filter_cons _ x).
  destruct (decide (Q x)), (decide (P x)); rewrite ?filter_cons;
    repeat case_decide; try done; by rewrite IH.
Qed.

(** Among entries with distinct identifiers and one host, removing the
    entry [e0] leaves no host if [e0] was the host, and the host otherwise. *)
Lemma hosts_after_removal (sk : list (Uuid * bool)) (e0 : Uuid * bool) :
  NoDup sk.*1 → e0 ∈ sk →
  length (filter (λ e, e.2 = true) sk) = 1 →
  length (filter (λ e, e.2 = true) (filter (λ e, e.1 ≠ e0.1) sk))
  = if e0.2 then 0 else 1.
Proof.
  intros Hnd He0 Hone.
  destruct (filter (λ e, e.2 = true) sk) as [|x [|??]] eqn:Hf; simplify_eq/=.
  assert (Hx : x.2 = true ∧ x ∈ sk).
  { apply (list_elem_of_filter (λ e, e.2 = true)). rewrite Hf. left. }
  destruct Hx as [Hxh Hx].
  rewrite list_filter_swap, Hf, filter_cons, filter_nil.
  destruct (e0.2) eqn:Hh.
  - assert (e0 = x) as ->.
    { assert (e0 ∈ filter (λ e, e.2 = true) sk) as Hin
        by by apply list_elem_of_filter.
      rewrite Hf in Hin. by apply list_elem_of_singleton in Hin. }
    by rewrite decide_False by naive_solver.
  - rewrite decide_True; [done|].
    intros Heq. assert (x = e0) by by eapply NoDup_fst_inj. congruence.
Qed.

Lemma roomOK_removePlayer n roomId currentPlayer room :
  roomOK n room → currentPlayer ∈ Room.players room →
  roomOK n (next (removePlayer roomId currentPlayer room).1) ∧
  threw (removePlayer roomId currentPlayer room).1 = false ∧
  ((removePlayer roomId currentPlayer room).2 = true
   ↔ Room.players (next (removePlayer roomId currentPlayer room).1) = []).
Proof.
  intros (Hnd & Hlt & Hhost) Hin.
  pose proof (skeleton_filter_id (Player.id currentPlayer) room) as Hsk.
  set (e0 := (Player.id currentPlayer, Player.isHost currentPlayer)).
  assert (He0 : e0 ∈ skeleton room).
  { unfold skeleton. by apply (list_elem_of_fmap_2 (λ p, (Player.id p, Player.isHost p))). }
  assert (Hone : length (filter (λ e, e.2 = true) (skeleton room)) = 1).
  { apply Hhost. intros E. rewrite E in He0. by apply elem_of_nil in He0. }
  pose proof (hosts_after_removal _ e0 Hnd He0 Hone) as Hcount. simpl in Hcount.
  assert (HndF : NoDup (filter (λ e, e.1 ≠ Player.id currentPlayer) (skeleton room)).*1).
  { eapply sublist_NoDup; [exact Hnd|]. apply fmap_sublist, sublist_filter. }
  assert (HltF : Forall (λ e, e.1 < n)
                   (filter (λ e, e.1 ≠ Player.id currentPlayer) (skeleton room))).
  { apply Forall_forall. intros e [_ He]%list_elem_of_filter.
    rewrite Forall_forall in Hlt. by apply Hlt. }
  rewrite <-Hsk in Hcount, HndF, HltF. clear Hsk.
  unfold removePlayer.
  destruct (filter _ (Room.players room)) as [|first rest] eqn:Hrem.
  { simpl. split_and!; [|done|done].
    unfold roomOK, skeleton. simpl. split_and!; [constructor|constructor|done]. }
  destruct (Player.isHost currentPlayer) eqn:Hh; simpl.
  - split_and!; [|done|done].
    unfold roomOK, skeleton, ident. simpl in *. split_and!.
    + done.
    + apply Forall_cons in HltF as [? ?]. by constructor.
    + intros _. rewrite filter_cons in Hcount.
      destruct (decide (_ = true)); simpl in Hcount; [lia|].
      by rewrite Hcount.
  - split_and!; [|done|done].
    unfold roomOK, skeleton. simpl. by split_and!.
Qed.

(** *** The invariant of the server *)

Lemma invariant_bump h r n : invariant (mkServer h r n) → invariant (mkServer h r (S n)).
Proof.
  intros (H1 & H2 & H3). split_and!; [done..|]. simpl in *.
  eapply Forall_impl; [done|]. intros room. apply roomOK_mono. lia.
Qed.

Lemma invariant_store s ref room room' :
  heap s !! ref = Some room →
  roomOK (uuidCount s) room' →
  (Room.players room ≠ [] → Room.players room' ≠ []) →
  invariant s → invariant (storeRoom s ref room').
Proof.
  intros Href Hok Hne (H1 & H2 & H3). split_and!; simpl.
  - done.
  - eapply Forall_impl; [done|]. simpl. intros e (room0 & He & Hne0).
    rewrite list_lookup_insert. case_decide as Hd.
    + destruct Hd as [Hd _]. exists room'. split; [done|].
      apply Hne. rewrite <-Hd in He. by simplify_eq.
    + by exists room0.
  - by apply Forall_insert.
Qed.

Lemma invariant_store_skeleton s ref room room' :
  heap s !! ref = Some room →
  skeleton room' = skeleton room →
  invariant s → invariant (storeRoom s ref room').
Proof.
  intros Href Hsk Hinv. eapply invariant_store; [done| |  |done].
  - eapply roomOK_skeleton; [done|].
    destruct Hinv as (_ & _ & H3). rewrite Forall_lookup in H3. by eapply H3.
  - rewrite <-!skeleton_nil. by rewrite Hsk.
Qed.

Lemma onRoom_invariant s roomId notFound h :
  (∀ ref room, skeleton (next (h ref room)) = skeleton room) →
  invariant s → invariant (next (onRoom s roomId notFound h)).
Proof.
  intros Hh Hinv. unfold onRoom.
  destruct (getRoom s roomId) as [[ref room]|] eqn:Hget; [|done].
  apply getRoom_Some in Hget as [_ Href]. simpl.
  by eapply invariant_store_skeleton.
Qed.

Lemma onObject_invariant s ref h :
  (∀ room, skeleton (next (h room)) = skeleton room) →
  invariant s → invariant (next (onObject s ref h)).
Proof.
  intros Hh Hinv. unfold onObject.
  destruct (heap s !! ref) as [room|] eqn:Href; [|done]. simpl.
  by eapply invariant_store_skeleton.
Qed.

Lemma invariant_refs s e :
  invariant s → e ∈ rooms s → e.2 < length (heap s).
Proof.
  intros (_ & H2 & _) He. rewrite Forall_forall in H2.
  destruct (H2 _ He) as (room & Hroom & _). by eapply lookup_lt_Some.
Qed.

Lemma createRoom_invariant sid draws s :
  invariant s → invariant (next (createRoom sid draws s)).
Proof.
  intros Hinv. pose proof Hinv as (H1 & H2 & H3).
  unfold createRoom. simpl. split_and!; simpl.
  - apply Map_set_NoDup; [done|].
    intros (e & Heq & He)%list_elem_of_fmap.
    apply (invariant_refs s) in He; [|done]. lia.
  - apply Map_set_Forall.
    + eapply Forall_impl; [done|]. simpl. intros e (room & He & Hne).
      exists room. split; [|done].
      rewrite lookup_app_l; [done|]. by eapply lookup_lt_Some.
    + eexists. split; [by apply list_lookup_middle|done].
  - apply Forall_app. split.
    + eapply Forall_impl; [done|]. intros room. apply roomOK_mono. lia.
    + constructor; [apply roomOK_new|constructor].
Qed.

Lemma joinRoom_invariant sid roomId name s :
  invariant s → invariant (next (joinRoom sid roomId name s)).
Proof.
  intros Hinv. unfold joinRoom.
  destruct (getRoom s roomId) as [[ref room]|] eqn:Hget; [|done].
  case_bool_decide; [done|].
  apply getRoom_Some in Hget as [Hreg Href].
  assert (Hne : Room.players room ≠ []).
  { destruct Hinv as (_ & H2 & _). rewrite Forall_forall in H2.
    apply Map_get_elem_of in Hreg.
    destruct (H2 _ Hreg) as (room0 & ? & ?). by simplify_eq/=. }
  assert (Hok : roomOK (uuidCount s) room).
  { destruct Hinv as (_ & _ & H3). rewrite Forall_lookup in H3. by eapply H3. }
  destruct s as [h r n]. simpl in *.
  apply invariant_bump in Hinv.
  apply (invariant_store (mkServer h r (S n)) ref room); simpl; [done| |  |done].
  - by apply (roomOK_addPlayer n roomId sid name).
  - intros _. by destruct (Room.players room).
Qed.

Lemma fireGrace_invariant roomId playerId sid s :
  invariant s → invariant (next (fireGrace roomId playerId sid s)).
Proof.
  intros Hinv. unfold fireGrace.
  destruct (getRoom s roomId) as [[ref currentRoom]|] eqn:Hget; [|done].
  destruct (findById _ _) as [[i currentPlayer]|] eqn:Hfind; [|done].
  case_bool_decide; [|done].
  apply getRoom_Some in Hget as [Hreg Href].
  apply findById_lookup in Hfind as [Hi _].
  assert (Hin : currentPlayer ∈ Room.players currentRoom)
    by by eapply list_elem_of_lookup_2.
  assert (Hok : roomOK (uuidCount s) currentRoom).
  { destruct Hinv as (_ & _ & H3). rewrite Forall_lookup in H3. by eapply H3. }
  destruct (roomOK_removePlayer _ roomId _ _ Hok Hin) as (Hok' & _ & Hempty).
  destruct (removePlayer roomId currentPlayer currentRoom) as [o emptied].
  simpl in *. destruct emptied.
  - destruct Hinv as (H1 & H2 & H3).
    destruct (Map_delete_NoDup _ _ _ Hreg H1) as [Hnd Hnot].
    split_and!; simpl; [done| |by apply Forall_insert].
    apply Forall_forall. intros e He.
    assert (He' : e ∈ rooms s) by (eapply elem_of_sublist; [done|apply Map_delete_sublist]).
    rewrite Forall_forall in H2. destruct (H2 _ He') as (room0 & Hroom0 & Hne0).
    exists room0. split; [|done].
    rewrite list_lookup_insert_ne; [done|].
    intros ->. apply Hnot. by apply (list_elem_of_fmap_2 snd) in He.
  - apply (invariant_store s ref currentRoom); [done|done| |done].
    intros _ E. apply Hempty in E. done.
Qed.

(** A handler that is the operation [op] on the resolved room keeps the
    invariant when [op] leaves the roster alone. *)
Ltac roster_untouched op :=
  first [apply onRoom_invariant | apply onObject_invariant];
  [intros; first [apply (applyOp_skeleton _ op) | apply (applyOp_skeleton 0 op)]
  | assumption].

Lemma handle_invariant s i : invariant s → invariant (next (handle s i)).
Proof.
  intros Hinv. destruct i as [| | | | | | | | | |t]; simpl.
  - by apply createRoom_invariant.
  - by apply joinRoom_invariant.
  - roster_untouched (op_reconnect roomId sid playerId).
  - roster_untouched (op_update_name roomId sid name).
  - roster_untouched (op_submit_images roomId sid images draws).
  - roster_untouched (op_images_synced roomId sid batchIndex).
  - roster_untouched (op_start_game sid).
  - roster_untouched (op_submit_guess sid imageIndex guessedPlayerId).
  - roster_untouched (op_new_game roomId sid).
  - done.
  - destruct t; simpl.
    + by apply fireGrace_invariant.
    + roster_untouched (op_batch index image).
    + roster_untouched (op_advance isLastRound scores).
Qed.

Lemma init_invariant : invariant init.
Proof. split_and!; constructor. Qed.

Lemma reachable_invariant s : reachable s → invariant s.
Proof.
  induction 1 as [|s i _ IH _]; [apply init_invariant|by apply handle_invariant].
Qed.


(** *** The rule *)

(** How the host flag is assigned: create-room makes its only player host,
    join-room appends a player that is not host, and the removal of the
    host by the disconnect timer makes the first remaining player host. *)
Lemma host_assignment sid draws s roomId name playerId room currentPlayer first rest :
  (Room.players <$> heap (next (createRoom sid draws s)) !! length (heap s)
     = Some [Player.mk (uuidCount s) sid "" true 0 0 []]) ∧
  Room.players (next (addPlayer roomId sid name playerId room))
    = Room.players room ++ [Player.mk playerId sid name false 0 0 []] ∧
  (Player.isHost currentPlayer = true →
   filter (λ p, Player.id p ≠ Player.id currentPlayer) (Room.players room)
     = first :: rest →
   Room.players (next (removePlayer roomId currentPlayer room).1)
     = Player.set_isHost true first :: rest).
Proof.
  split_and!.
  - simpl. by rewrite list_lookup_middle.
  - done.
  - intros Hhost Hrem. unfold removePlayer. by rewrite Hrem, Hhost.
Qed.

(** C4.  In every state that the server reaches, every room object has at
    most one player with [isHost = true], and exactly one when it has a
    player; in particular, after the disconnect timer fired, whatever it
    removed, a room that still has a player has exactly one host. *)
Theorem at_most_one_host s ref room :
  reachable s → heap s !! ref = Some room →
  hostCount room ≤ 1 ∧
  (Room.players room ≠ [] → hostCount room = 1) ∧
  (∀ roomId playerId sid room',
     heap (next (fireGrace roomId playerId sid s)) !! ref = Some room' →
     Room.players room' ≠ [] → hostCount room' = 1).
Proof.
  intros Hs Href.
  assert (Hall : ∀ s0 room0, invariant s0 → heap s0 !! ref = Some room0 →
            hostCount room0 ≤ 1 ∧ (Room.players room0 ≠ [] → hostCount room0 = 1)).
  { intros s0 room0 (_ & _ & H3) H0. rewrite Forall_lookup in H3.
    eapply roomOK_hostCount, H3, H0. }
  apply reachable_invariant in Hs.
  destruct (Hall s room Hs Href) as [H1 H2]. split_and!; [done..|].
  intros roomId playerId sid room' Href'.
  eapply Hall; [|done]. by apply fireGrace_invariant.
Qed.

(** The host of a room of two leaves for good: the other player is host. *)
Lemma at_most_one_host_witness :
  let inputs := [create_room "s1" drawsABCDEF; join_room "s2" "ABCDEF" "bob"] in
  let s := next (run init inputs) in
  let room :=
    Room.mk "ABCDEF"
      [Player.mk 0 "s1" "" true 0 0 []; Player.mk 1 "s2" "bob" false 0 0 []]
      LOBBY 0 [] false ∅ None in
  let room' :=
    Room.mk "ABCDEF" [Player.mk 1 "s2" "bob" true 0 0 []]
      LOBBY 0 [] false ∅ None in
  reachable s ∧ heap s !! 0 = Some room ∧
  heap (next (fireGrace "ABCDEF" 0 "s1" s)) !! 0 = Some room' ∧
  hostCount room ≤ 1 ∧ hostCount room' = 1.
Proof.
  intros inputs s room room'.
  assert (Hs : reachable s) by (apply run_reachable; [apply reachable_init|reflexivity]).
  assert (Href : heap s !! 0 = Some room) by reflexivity.
  assert (Href' : heap (next (fireGrace "ABCDEF" 0 "s1" s)) !! 0 = Some room')
    by reflexivity.
  destruct (at_most_one_host s 0 room Hs Href) as (Hle & _ & Hafter).
  split; [exact Hs|]. split; [exact Href|]. split; [exact Href'|].
  split; [exact Hle|].
  apply (Hafter "ABCDEF" 0 "s1" room' Href'). discriminate.
Defined.

(** ** The room registry *)

(** C7, as the code has it.  create-room registers the new room under the
    generated code, six characters of the alphabet, without looking the
    code up first: the code then resolves to the new room, every other code
    resolves to what it resolved to before, and no room object is
    destroyed.  A room that was registered under the generated code is no
    longer reachable through the registry. *)
Theorem createRoom_stores_under_generated_code s sid draws :
  reachable s →
  let roomId := generateRoomCode draws in
  let s' := next (createRoom sid draws s) in
  String.length roomId = 6 ∧
  Forall (.∈ alphabet) (String.list_ascii_of_string roomId) ∧
  getRoom s' roomId
    = Some (length (heap s),
            Room.mk roomId [Player.mk (uuidCount s) sid "" true 0 0 []]
                    LOBBY 0 [] false ∅ None) ∧
  (∀ code, code ≠ roomId → getRoom s' code = getRoom s code) ∧
  (∀ ref room, heap s !! ref = Some room → heap s' !! ref = Some room).
Proof.
  intros Hs%reachable_invariant roomId s'.
  destruct (generateRoomCode_shape draws) as [Hlen Halpha].
  split_and!; [done|done| | |].
  - unfold getRoom, s'. simpl. fold roomId. rewrite Map_get_set_eq. simpl.
    by rewrite list_lookup_middle.
  - intros code Hne. unfold getRoom, s'. simpl. fold roomId.
    rewrite Map_get_set_ne by done.
    destruct (Map_get (rooms s) code) as [ref|] eqn:Hget; [|done]. simpl.
    apply Map_get_elem_of in Hget. apply (invariant_refs s) in Hget; [|done].
    by rewrite lookup_app_l.
  - intros ref room Href. unfold s'. simpl.
    rewrite lookup_app_l; [done|]. by eapply lookup_lt_Some.
Qed.

Lemma createRoom_stores_under_generated_code_witness :
  reachable init ∧
  getRoom (next (createRoom "s1" drawsABCDEF init)) "ABCDEF"
    = Some (0, Room.mk "ABCDEF" [Player.mk 0 "s1" "" true 0 0 []]
                       LOBBY 0 [] false ∅ None).
Proof.
  split; [apply reachable_init|].
  apply (createRoom_stores_under_generated_code init "s1" drawsABCDEF reachable_init).
Defined.

(** The code that create-room generates can be in use: two create-room
    commands with the same draws get the same code, and the second room
    takes the place of the first in the registry. *)
Lemma createRoom_replaces_room_on_collision :
  let s := next (createRoom "s1" drawsABCDEF init) in
  let s' := next (createRoom "s2" drawsABCDEF s) in
  reachable s ∧
  generateRoomCode drawsABCDEF = "ABCDEF" ∧
  (fst <$> getRoom s "ABCDEF") = Some 0 ∧
  (fst <$> getRoom s' "ABCDEF") = Some 1 ∧
  rooms s' = [("ABCDEF", 1)].
Proof.
  split_and!; try reflexivity.
  apply (reachable_step init (create_room "s1" drawsABCDEF)); [apply reachable_init|done].
Qed.

(** ** Sync completion *)

Lemma syncCompleteCount_app out1 out2 :
  syncCompleteCount (out1 ++ out2) = syncCompleteCount out1 + syncCompleteCount out2.
Proof. unfold syncCompleteCount. by rewrite List.filter_app, length_app. Qed.

Lemma imap_quiet {A} (f : nat → A → Output) (l : list A) :
  (∀ i x, isSyncComplete (f i x) = false) → syncCompleteCount (imap f l) = 0.
Proof.
  revert f. induction l as [|x l IH]; intros f Hf; [done|].
  unfold syncCompleteCount in *. simpl. rewrite Hf. apply IH.
  intros i y. apply Hf.
Qed.

Lemma scheduleBatches_quiet self deck : syncCompleteCount (scheduleBatches self deck) = 0.
Proof. by apply imap_quiet. Qed.

Lemma sendRound_quiet room : syncCompleteCount (sendRound room) = 0.
Proof. unfold sendRound. by destruct (_ !! _). Qed.

Lemma processRoundResults_sync self room :
  syncCompleteCount (emitted (processRoundResults self room)) = 0 ∧
  Room.syncComplete (next (processRoundResults self room)) = Room.syncComplete room.
Proof.
  unfold processRoundResults. cbv zeta.
  by repeat case_match.
Qed.

(** An operation other than new-game never clears the completion flag, and
    broadcasts sync-complete only when it sets the flag. *)
Lemma applyOp_sync self op room :
  isNewGame op = false →
  syncCompleteCount (emitted (applyOp self op room)) + flag (Room.syncComplete room)
  ≤ flag (Room.syncComplete (next (applyOp self op room))).
Proof.
  intros Hop. destruct op; simpl in *; try done.
  - unfold reconnectToRoom. by destruct (findById _ _) as [[??]|].
  - unfold updateName. by destruct (findBySocket _ _) as [[??]|].
  - unfold submitImages. destruct (findBySocket _ _) as [[??]|]; [|done].
    rewrite and_then_ret. destruct (forallb _ _); [|done]. cbn [emitted next].
    rewrite syncCompleteCount_app. unfold startImageSync. cbn [emitted next ret].
    by rewrite scheduleBatches_quiet.
  - unfold imagesSynced. destruct (findBySocket _ _) as [[??]|]; [|done].
    cbn zeta. destruct (allSynced _ && _) eqn:Hc; [|done].
    apply andb_true_iff in Hc as [_ Hc]. simpl in Hc.
    apply negb_true_iff in Hc. by rewrite Hc.
  - unfold startGame.
    destruct (negb (isHostSocket _ _)); [done|].
    destruct (negb (Room.syncComplete room)); [done|].
    cbn [emitted next ret].
    change (callback ack_success :: ?l) with ([callback ack_success] ++ l).
    rewrite syncCompleteCount_app, sendRound_quiet. done.
  - unfold submitGuess. destruct (findBySocket _ _) as [[??]|]; [|done].
    destruct (Room.guesses room); [|done].
    rewrite and_then_ret. case_bool_decide; [|done]. cbn [emitted next].
    rewrite syncCompleteCount_app.
    destruct (processRoundResults_sync self
                (Room.set_guesses
                   (Some (<[imageIndex:=<[Player.id t:=guessedPlayerId]>
                                          (default ∅ (g !! imageIndex))]> g)) room))
      as [-> ->]. done.
  - unfold removePlayer. destruct (filter _ _); [done|].
    by destruct (Player.isHost currentPlayer).
  - unfold advanceRound. destruct isLastRound; [done|].
    cbn [emitted next ret]. by rewrite sendRound_quiet.
Qed.

Lemma flag_le b : flag b ≤ 1.
Proof. by destruct b; simpl; lia. Qed.

Lemma runOps_sync self room ops :
  Forall (λ op, isNewGame op = false) ops →
  syncCompleteCount (emitted (runOps self room ops)) + flag (Room.syncComplete room)
  ≤ flag (Room.syncComplete (next (runOps self room ops))).
Proof.
  intros Hops. revert room.
  induction Hops as [|op ops Hop _ IH]; intros room; simpl; [lia|].
  pose proof (applyOp_sync self op room Hop) as H1.
  unfold and_then. destruct (threw (applyOp self op room)); [done|].
  cbn [emitted next]. rewrite syncCompleteCount_app.
  specialize (IH (next (applyOp self op room))). lia.
Qed.

(** C2.  Take a room object in any state and any sequence of operations on
    it that holds no new-game: sync-complete is broadcast at most once; it
    is not broadcast at all when the completion flag is already set; and a
    broadcast leaves the flag set, so that no later acknowledgment
    broadcasts it again. *)
Theorem sync_complete_at_most_once self room ops :
  Forall (λ op, isNewGame op = false) ops →
  let o := runOps self room ops in
  syncCompleteCount (emitted o) ≤ 1 ∧
  (Room.syncComplete room = true → syncCompleteCount (emitted o) = 0) ∧
  (syncCompleteCount (emitted o) = 1 → Room.syncComplete (next o) = true).
Proof.
  intros Hops o. pose proof (runOps_sync self room ops Hops) as H.
  fold o in H. pose proof (flag_le (Room.syncComplete (next o))).
  split_and!.
  - lia.
  - intros E. rewrite E in H. simpl in H. lia.
  - intros E. destruct (Room.syncComplete (next o)); [done|]. simpl in H. lia.
Qed.

Lemma sync_complete_at_most_once_witness :
  let ops := [op_images_synced "ABCDEF" "s1" 99;
              op_images_synced "ABCDEF" "s1" 0;
              op_images_synced "ABCDEF" "s1" 1] in
  Forall (λ op, isNewGame op = false) ops ∧
  syncCompleteCount (emitted (runOps 0 room_in_sync ops)) ≤ 1.
Proof.
  intros ops.
  assert (Hops : Forall (λ op, isNewGame op = false) ops)
    by (repeat constructor).
  split; [exact Hops|].
  apply (sync_complete_at_most_once 0 room_in_sync ops Hops).
Defined.

(** Every input acts on a room object through one of the operations, or
    not at all. *)
Lemma onRoom_object s roomId notFound ref room (op : RoomOp) h :
  heap s !! ref = Some room →
  (∀ self room0, h self room0 = applyOp self op room0) →
  let o := onRoom s roomId notFound h in
  heap (next o) !! ref = Some room ∨
  heap (next o) !! ref = Some (next (applyOp ref op room)) ∧
  emitted o = emitted (applyOp ref op room) ∧
  threw o = threw (applyOp ref op room).
Proof.
  intros Href Hh. unfold onRoom.
  destruct (getRoom s roomId) as [[ref' room']|] eqn:Hget; [|by left].
  apply getRoom_Some in Hget as [_ Href']. cbn zeta. cbn [next emitted threw].
  unfold storeRoom. cbn [heap].
  destruct (decide (ref' = ref)) as [->|Hne].
  - right. simplify_eq. rewrite list_lookup_insert_eq by by eapply lookup_lt_Some.
    by rewrite Hh.
  - left. by rewrite list_lookup_insert_ne.
Qed.

Lemma onObject_object s ref' ref room (op : RoomOp) h :
  heap s !! ref = Some room →
  (∀ room0, h room0 = applyOp ref op room0) →
  let o := onObject s ref' h in
  heap (next o) !! ref = Some room ∨
  heap (next o) !! ref = Some (next (applyOp ref op room)) ∧
  emitted o = emitted (applyOp ref op room) ∧
  threw o = threw (applyOp ref op room).
Proof.
  intros Href Hh. unfold onObject.
  destruct (heap s !! ref') as [room'|] eqn:Href'; [|by left].
  cbn zeta. cbn [next emitted threw]. unfold storeRoom. cbn [heap].
  destruct (decide (ref' = ref)) as [->|Hne].
  - right. simplify_eq. rewrite list_lookup_insert_eq by by eapply lookup_lt_Some.
    by rewrite Hh.
  - left. by rewrite list_lookup_insert_ne.
Qed.

Lemma handle_acts_by_ops s i ref room :
  heap s !! ref = Some room →
  heap (next (handle s i)) !! ref = Some room ∨
  ∃ op, heap (next (handle s i)) !! ref = Some (next (applyOp ref op room)) ∧
        emitted (handle s i) = emitted (applyOp ref op room) ∧
        threw (handle s i) = threw (applyOp ref op room) ∧
        (isNewGame op = true → ∃ sid roomId, i = new_game sid roomId).
Proof.
  intros Href.
  assert (Hwrap : ∀ (o : Outcome Server) op,
    (isNewGame op = true → ∃ sid roomId, i = new_game sid roomId) →
    heap (next o) !! ref = Some room ∨
    heap (next o) !! ref = Some (next (applyOp ref op room)) ∧
    emitted o = emitted (applyOp ref op room) ∧
    threw o = threw (applyOp ref op room) →
    heap (next o) !! ref = Some room ∨
    ∃ op, heap (next o) !! ref = Some (next (applyOp ref op room)) ∧
          emitted o = emitted (applyOp ref op room) ∧
          threw o = threw (applyOp ref op room) ∧
          (isNewGame op = true → ∃ sid roomId, i = new_game sid roomId)).
  { intros o op Hng [?|(?&?&?)]; [by left|right; by exists op]. }
  destruct i as [| | | | | | | | | |t]; simpl.
  - left. rewrite lookup_app_l; [done|]. by eapply lookup_lt_Some.
  - unfold joinRoom.
    destruct (getRoom s roomId) as [[ref' room']|] eqn:Hget; [|by left].
    case_bool_decide; [by left|].
    apply getRoom_Some in Hget as [_ Href']. cbn [next emitted threw heap].
    destruct (decide (ref' = ref)) as [->|Hne].
    + right. exists (op_join roomId sid name (uuidCount s)). simplify_eq.
      rewrite list_lookup_insert_eq by by eapply lookup_lt_Some. done.
    + left. by rewrite list_lookup_insert_ne.
  - apply (Hwrap _ (op_reconnect roomId sid playerId)); [done|].
    by apply onRoom_object.
  - apply (Hwrap _ (op_update_name roomId sid name)); [done|].
    by apply onRoom_object.
  - apply (Hwrap _ (op_submit_images roomId sid images draws)); [done|].
    by apply onRoom_object.
  - apply (Hwrap _ (op_images_synced roomId sid batchIndex)); [done|].
    by apply onRoom_object.
  - apply (Hwrap _ (op_start_game sid)); [done|].
    by apply onRoom_object.
  - apply (Hwrap _ (op_submit_guess sid imageIndex guessedPlayerId)); [done|].
    by apply onRoom_object.
  - apply (Hwrap _ (op_new_game roomId sid)); [by eauto|].
    by apply onRoom_object.
  - by left.
  - destruct t; simpl.
    + unfold fireGrace.
      destruct (getRoom s roomId) as [[ref' room']|] eqn:Hget; [|by left].
      destruct (findById _ _) as [[j currentPlayer]|]; [|by left].
      case_bool_decide; [|by left].
      apply getRoom_Some in Hget as [_ Href'].
      destruct (decide (ref' = ref)) as [->|Hne].
      * right. exists (op_remove roomId currentPlayer). simplify_eq. simpl.
        destruct (removePlayer roomId currentPlayer room) as [o emptied].
        cbn [next emitted threw heap fst].
        rewrite list_lookup_insert_eq by by eapply lookup_lt_Some. done.
      * left. destruct (removePlayer roomId currentPlayer room') as [o emptied].
        cbn [next heap]. by rewrite list_lookup_insert_ne.
    + apply (Hwrap _ (op_batch index image)); [done|].
      by apply onObject_object.
    + apply (Hwrap _ (op_advance isLastRound scores)); [done|].
      by apply onObject_object.
Qed.


(** ** Where the server departs from its specification *)

(** The trigger of submit-guess, [roundGuesses.size >= room.players.length],
    says that every present player has a recorded guess as long as the
    players have distinct identifiers and the guess map of the round only
    holds guesses of present players. *)
Lemma trigger_without_stale_guesses (roundGuesses : gmap nat nat) (players : list Player.t) :
  NoDup (Player.id <$> players) →
  (∀ playerId, is_Some (roundGuesses !! playerId) → playerId ∈ Player.id <$> players) →
  length players ≤ size roundGuesses ↔
  ∀ p, p ∈ players → is_Some (roundGuesses !! Player.id p).
Proof.
  intros Hnd Hsub.
  set (ids := list_to_set (Player.id <$> players) : gset nat).
  assert (Hsize : size ids = length players).
  { unfold ids. rewrite size_list_to_set by done. by rewrite length_fmap. }
  assert (Hdom : dom roundGuesses ⊆ ids).
  { intros x Hx%elem_of_dom. apply elem_of_list_to_set. by apply Hsub. }
  rewrite <-Hsize, <-size_dom. split.
  - intros Hle p Hp.
    assert (Heq : dom roundGuesses ≡ ids).
    { apply set_subseteq_size_equiv; done. }
    apply elem_of_dom. apply Heq. apply elem_of_list_to_set.
    by apply list_elem_of_fmap_2.
  - intros Hall. apply subseteq_size. intros x Hx.
    apply elem_of_list_to_set, list_elem_of_fmap in Hx as (p & -> & Hp).
    apply elem_of_dom. by apply Hall.
Qed.

(** A guess for the current round, when the deck has an entry for it, is
    handled without a throw. *)
Lemma submitGuess_current_round_total self sid guessedPlayerId room guesses currentImage :
  Room.guesses room = Some guesses →
  Room.allImages room !! Room.currentImageIndex room = Some currentImage →
  threw (submitGuess self sid (Z.of_nat (Room.currentImageIndex room))
           guessedPlayerId room) = false.
Proof.
  intros Hg Himg. unfold submitGuess.
  destruct (findBySocket _ _) as [[i player]|]; [|done].
  rewrite Hg, and_then_ret. cbn [threw].
  case_bool_decide; [|done].
  unfold processRoundResults. cbn [Room.guesses Room.set_guesses Room.players
    Room.allImages Room.currentImageIndex].
  rewrite lookup_insert_eq, Himg.
  by destruct (Room.players room).
Qed.

(** C1.  Players 0, 1 and 2 are in round 0.  Player 2 guesses, disconnects
    and is removed by the grace timer; then player 1 guesses.  The guess map
    of the round holds two entries (players 2 and 1) and two players are
    present (0 and 1), so the handler resolves the round: round-results is
    broadcast although the present player 0 has no recorded guess, the
    guess of the departed player having been counted in their place. *)
Theorem resolution_counts_departed_guess :
  let before := run init (three_player_game ++ carol_guesses_and_leaves) in
  let s := next before in
  let o := handle s (submit_guess "s2" "ABCDEF" 0 1) in
  threw before = false ∧
  (fst <$> getRoom s "ABCDEF") = Some 0 ∧
  (fst <$> glance s 0) = Some (PLAYING, 0) ∧
  ((λ room, Player.id <$> Room.players room) <$> heap (next o) !! 0) = Some [0; 1] ∧
  recordedGuess (next o) 0 0 0 = None ∧
  recordedGuess (next o) 0 0 1 = Some 1 ∧
  recordedGuess (next o) 0 0 2 = Some 1 ∧
  emitted o =
    [to_socket "s2" guess_submitted;
     to_room "ABCDEF"
       (round_results 0 ""
          [Result.mk 0 "" 0 false; Result.mk 1 "bob" 0 false]
          [{| se_id := 0; se_name := ""; se_score := 0 |};
           {| se_id := 1; se_name := "bob"; se_score := 0 |}]
          false);
     set_timeout
       (advance_timer 0 false
          [{| se_id := 0; se_name := ""; se_score := 0 |};
           {| se_id := 1; se_name := "bob"; se_score := 0 |}])
       4000].
Proof. by vm_compute. Qed.

Lemma allReady_Forall (players : list Player.t) :
  forallb (λ p, Player.imageCount p =? 10) players = true
  ↔ Forall (λ p, Player.imageCount p = 10) players.
Proof.
  induction players as [|p players IH]; simpl.
  - split; [constructor|done].
  - rewrite andb_true_iff, Forall_cons, Nat.eqb_eq, IH. done.
Qed.

(** C8, as the code has it.  The start of the image sync is level-triggered
    and keeps no record of an earlier run: a submit-images of a player of
    the room stores the images, acknowledges and broadcasts room-updated,
    and then runs [startImageSync] exactly when every player of the room
    has an [imageCount] of 10, whatever the deck and the sync state of the
    room were.  Each run replaces the deck by a shuffle of the tagged
    images that the players hold then and arms one batch timer per deck
    entry; when some player has not ten images the deck stays as it was and
    no timer is armed. *)
Theorem submit_images_sync_is_level_triggered s sid roomId images draws ref room i player :
  getRoom s roomId = Some (ref, room) →
  findBySocket sid (Room.players room) = Some (i, player) →
  let o := handle s (submit_images sid roomId images draws) in
  let room1 :=
    Room.set_players (<[i := Player.set_images images player]> (Room.players room)) room in
  let deck := shuffle draws (combineImages (Room.players room1)) in
  let acks := [callback ack_success; to_room roomId (room_updated (sanitizeRoom room1))] in
  threw o = false ∧
  if decide (Forall (λ p, Player.imageCount p = 10) (Room.players room1)) then
    getRoom (next o) roomId = Some (ref, Room.set_allImages deck room1) ∧
    emitted o = acks ++ scheduleBatches ref deck ∧
    deck ≡ₚ combineImages (Room.players room1) ∧
    length (scheduleBatches ref deck) = length deck
  else
    getRoom (next o) roomId = Some (ref, room1) ∧
    Room.allImages room1 = Room.allImages room ∧
    emitted o = acks.
Proof.
  intros Hget Hfind o room1 deck acks.
  assert (Hsub : submitImages ref roomId sid images draws room
            = and_then (ret room1 acks)
                (λ r, if forallb (λ p, Player.imageCount p =? 10) (Room.players room1)
                      then startImageSync ref draws r else ret r [])).
  { unfold submitImages. by rewrite Hfind. }
  assert (Ho : o = mkOutcome
                     (storeRoom s ref (next (submitImages ref roomId sid images draws room)))
                     (emitted (submitImages ref roomId sid images draws room))
                     (threw (submitImages ref roomId sid images draws room))).
  { unfold o. cbn [handle]. unfold onRoom. by rewrite Hget. }
  assert (Hstore : ∀ room', getRoom (storeRoom s ref room') roomId = Some (ref, room')).
  { intros room'. pose proof Hget as [Hreg Href]%getRoom_Some.
    apply getRoom_Some. split; [done|]. simpl.
    apply list_lookup_insert_eq. by eapply lookup_lt_Some. }
  rewrite Ho, Hsub, and_then_ret. cbn [next emitted threw].
  destruct (decide _) as [Hall|Hnot].
  - apply allReady_Forall in Hall. rewrite Hall.
    unfold startImageSync, ret. cbn [next emitted threw].
    split_and!; [done|apply Hstore|done|apply shuffle_Permutation|].
    unfold scheduleBatches. by rewrite length_imap.
  - destruct (forallb _ _) eqn:Hall; [by apply allReady_Forall in Hall|].
    unfold ret. cbn [next emitted threw].
    split_and!; [done|apply Hstore|done|by rewrite app_nil_r].
Qed.

Lemma submit_images_sync_is_level_triggered_witness :
  let s := next (run init host_ready_then_guest_joins) in
  let o := handle s (submit_images "s2" "ABCDEF" (tenPhotos "b") []) in
  getRoom s "ABCDEF" = Some (0, host_synced_guest_joined) ∧
  findBySocket "s2" (Room.players host_synced_guest_joined)
    = Some (1, Player.mk 1 "s2" "bob" false 0 0 []) ∧
  length (Room.allImages host_synced_guest_joined) = 10 ∧
  threw o = false ∧
  ((λ e, length (Room.allImages e.2)) <$> getRoom (next o) "ABCDEF") = Some 20 ∧
  length (emitted o) = 22.
Proof.
  intros s o.
  assert (Hget : getRoom s "ABCDEF" = Some (0, host_synced_guest_joined))
    by (vm_compute; reflexivity).
  destruct (submit_images_sync_is_level_triggered s "s2" "ABCDEF" (tenPhotos "b") []
              0 host_synced_guest_joined 1 _ Hget eq_refl) as [Hthrew Hsync].
  destruct (decide _) as [_|Hnot] in Hsync.
  - destruct Hsync as (Hroom & Hout & _ & _).
    split; [exact Hget|]. split; [reflexivity|]. split; [reflexivity|].
    split; [exact Hthrew|]. split.
    + fold o in Hroom. rewrite Hroom. vm_compute. reflexivity.
    + fold o in Hout. rewrite Hout. vm_compute. reflexivity.
  - exfalso. apply Hnot. vm_compute. repeat constructor.
Defined.

(** The sync is not started once only.  The only player of a room has
    submitted ten photos, so the deck is built and its ten batches are
    scheduled.  The player submits ten photos again: [startImageSync] runs
    again, the deck is rebuilt and shuffled with the new draws (its order
    changes) and the ten batches are scheduled a second time. *)
Theorem resubmission_restarts_image_sync :
  let s := next (run init one_player_ready) in
  let o := handle s (submit_images "s1" "ABCDEF" (tenPhotos "a") [1; 1; 1; 1; 1; 1; 1; 1; 1]) in
  ((λ room, Player.imageCount <$> Room.players room) <$> heap s !! 0) = Some [10] ∧
  glance s 0
    = Some (LOBBY, 0, ["a1"; "a2"; "a3"; "a4"; "a5"; "a6"; "a7"; "a8"; "a9"; "a0"]) ∧
  glance (next o) 0
    = Some (LOBBY, 0, ["a0"; "a2"; "a3"; "a4"; "a5"; "a6"; "a7"; "a8"; "a9"; "a1"]) ∧
  drop 2 (emitted o) =
    [set_timeout (batch_timer 0 0 "a0") 0;
     set_timeout (batch_timer 0 1 "a2") 100;
     set_timeout (batch_timer 0 2 "a3") 200;
     set_timeout (batch_timer 0 3 "a4") 300;
     set_timeout (batch_timer 0 4 "a5") 400;
     set_timeout (batch_timer 0 5 "a6") 500;
     set_timeout (batch_timer 0 6 "a7") 600;
     set_timeout (batch_timer 0 7 "a8") 700;
     set_timeout (batch_timer 0 8 "a9") 800;
     set_timeout (batch_timer 0 9 "a1") 900].
Proof. by vm_compute. Qed.

(** C9.  Two commands on which a handler throws, in a room that is PLAYING.
    With a deck of ten photos and round 0 current, the only player sends a
    guess for round 5: the guess is recorded, its map has as many entries
    as the room has players, and [processRoundResults] reads the guess map
    of round 0, which does not exist.  With an empty deck (the sync
    completed before any photo was submitted), a guess for round 0 makes
    [processRoundResults] read the owner of a deck entry that does not
    exist. *)
Theorem guess_can_throw :
  let s := next (run init solo_game) in
  let o := handle s (submit_guess "s1" "ABCDEF" 5 0) in
  let s0 := next (run init empty_deck_game) in
  let o0 := handle s0 (submit_guess "s1" "ABCDEF" 0 0) in
  (threw (run init solo_game) = false ∧
   glance s 0
     = Some (PLAYING, 0, ["a1"; "a2"; "a3"; "a4"; "a5"; "a6"; "a7"; "a8"; "a9"; "a0"]) ∧
   recordedGuess (next o) 0 5 0 = Some 0 ∧
   emitted o = [to_socket "s1" guess_submitted] ∧
   threw o = true) ∧
  (threw (run init empty_deck_game) = false ∧
   glance s0 0 = Some (PLAYING, 0, []) ∧
   recordedGuess (next o0) 0 0 0 = Some 0 ∧
   emitted o0 = [to_socket "s1" guess_submitted] ∧
   threw o0 = true).
Proof. by vm_compute. Qed.

(** * Further properties *)

Lemma handle_heap_length s i :
  length (heap (next (handle s i))) =
  length (heap s) + (if i is create_room _ _ then 1 else 0).
Proof.
  assert (Hon : ∀ roomId nf h, length (heap (next (onRoom s roomId nf h))) = length (heap s)).
  { intros. unfold onRoom. destruct (getRoom s roomId) as [[??]|]; [|done].
    simpl. by rewrite length_insert. }
  assert (Hob : ∀ ref h, length (heap (next (onObject s ref h))) = length (heap s)).
  { intros. unfold onObject. destruct (heap s !! ref); [|done].
    simpl. by rewrite length_insert. }
  destruct i as [| | | | | | | | | |t]; simpl; rewrite ?Hon, ?Nat.add_0_r; try done.
  - rewrite length_app. simpl. lia.
  - unfold joinRoom. destruct (getRoom s roomId) as [[??]|]; [|done].
    case_bool_decide; [done|]. simpl. by rewrite length_insert.
  - destruct t; simpl; rewrite ?Hob; try done.
    unfold fireGrace. destruct (getRoom s roomId) as [[??]|]; [|done].
    destruct (findById _ _) as [[??]|]; [|done].
    case_bool_decide; [|done].
    destruct (removePlayer _ _ _). simpl. by rewrite length_insert.
Qed.

(** A property of room objects that create-room establishes and every
    operation keeps holds of every room object of every reachable state. *)
Lemma handle_preserves (P : Room.t → Prop) s i :
  (∀ self op room, P room → P (next (applyOp self op room))) →
  (∀ roomId sid playerId, P (newRoom roomId sid playerId)) →
  Forall P (heap s) → Forall P (heap (next (handle s i))).
Proof.
  intros Hop Hnew Hs. apply Forall_lookup. intros ref room' Href'.
  destruct (heap s !! ref) as [room|] eqn:Href.
  - assert (P room) by (by eapply (proj1 (Forall_lookup _ _) Hs)).
    destruct (handle_acts_by_ops s i ref room Href) as [H1|(op & H1 & _)];
      rewrite H1 in Href'; simplify_eq; auto.
  - apply lookup_ge_None in Href.
    pose proof (lookup_lt_Some _ _ _ Href') as Hlt.
    rewrite handle_heap_length in Hlt.
    destruct i; try lia. simpl in Href'.
    rewrite lookup_app_r in Href' by done.
    destruct (ref - length (heap s)) as [|n] eqn:E; simpl in Href'; [|by destruct n].
    simplify_eq. apply Hnew.
Qed.

Lemma reachable_preserves (P : Room.t → Prop) s :
  (∀ self op room, P room → P (next (applyOp self op room))) →
  (∀ roomId sid playerId, P (newRoom roomId sid playerId)) →
  reachable s → Forall P (heap s).
Proof.
  intros Hop Hnew. induction 1 as [|s i _ IH _]; [constructor|].
  by apply handle_preserves.
Qed.

Lemma Forall_insert_found {A} (Q : A → Prop) (l : list A) i x y :
  Forall Q l → l !! i = Some x → (Q x → Q y) → Forall Q (<[i := y]> l).
Proof.
  intros Hl Hi Hxy. apply Forall_insert; [done|].
  apply Hxy. by eapply (proj1 (Forall_lookup _ _) Hl).
Qed.

(** A round resolution throws before it changes or sends anything, or it
    rescores the players, broadcasts the results and arms the advance
    timer. *)
Lemma processRoundResults_cases self room :
  processRoundResults self room = throw room [] ∨
  ∃ roundGuesses currentImage results scores isLastRound,
    processRoundResults self room
    = ret (Room.set_players
             (scorePlayer roundGuesses currentImage <$> Room.players room) room)
          [to_room (Room.id room)
             (round_results (ImageData.ownerId currentImage)
                (ImageData.ownerName currentImage) results scores isLastRound);
           set_timeout (advance_timer self isLastRound scores) 4000].
Proof.
  unfold processRoundResults.
  destruct (Room.guesses room) as [g|]; [|by left].
  destruct (Room.players room) as [|p ps] eqn:Hps.
  - destruct (Room.allImages room !! _) as [img|]; [|by left].
    right. cbn zeta. by exists ∅, img, [], [], (bool_decide
      (length (Room.allImages room) - 1 ≤ Room.currentImageIndex room)).
  - destruct (g !! _) as [rg|]; [|by left].
    destruct (Room.allImages room !! _) as [img|]; [|by left].
    right. cbn zeta. rewrite <-Hps. by eexists rg, img, _, _, _.
Qed.

(** What a round resolution can do to the players. *)
Lemma processRoundResults_next_players self room :
  Room.players (next (processRoundResults self room)) = Room.players room ∨
  ∃ roundGuesses currentImage,
    Room.players (next (processRoundResults self room))
    = scorePlayer roundGuesses currentImage <$> Room.players room.
Proof.
  destruct (processRoundResults_cases self room)
    as [->|(rg & img & ? & ? & ? & ->)]; [by left|right; by exists rg, img].
Qed.

Lemma processRoundResults_players (Q : Player.t → Prop) self room :
  PlayerInvariant Q →
  Forall Q (Room.players room) →
  Forall Q (Room.players (next (processRoundResults self room))).
Proof.
  intros HQ Hall.
  destruct (processRoundResults_next_players self room) as [->|(rg & img & ->)];
    [done|].
  apply Forall_fmap. eapply Forall_impl; [done|].
  intros p Hp. simpl. unfold scorePlayer. case_match; [|done].
  by apply (pi_score_add Q).
Qed.

Lemma applyOp_players (Q : Player.t → Prop) self op room :
  PlayerInvariant Q →
  Forall Q (Room.players room) →
  Forall Q (Room.players (next (applyOp self op room))).
Proof.
  intros HQ Hall. destruct op; simpl.
  - apply Forall_app. split; [done|]. repeat constructor. apply (pi_new Q HQ).
  - unfold reconnectToRoom. destruct (findById _ _) as [[i p]|] eqn:Hf; [|done].
    apply findById_lookup in Hf as [Hi _]. simpl.
    eapply Forall_insert_found; [done..|]. apply (pi_socketId Q HQ).
  - unfold updateName. destruct (findBySocket _ _) as [[i p]|] eqn:Hf; [|done].
    apply findBySocket_lookup in Hf. simpl.
    eapply Forall_insert_found; [done..|]. apply (pi_name Q HQ).
  - unfold submitImages. destruct (findBySocket _ _) as [[i p]|] eqn:Hf; [|done].
    apply findBySocket_lookup in Hf. rewrite and_then_ret.
    destruct (forallb _ _); simpl;
      (eapply Forall_insert_found; [done..|]); apply (pi_images Q HQ).
  - unfold imagesSynced. destruct (findBySocket _ _) as [[i p]|]; [|done].
    cbn zeta. by destruct (_ && _).
  - unfold startGame.
    destruct (negb (isHostSocket _ _)); [done|].
    destruct (negb (Room.syncComplete room)); [done|]. simpl.
    apply Forall_fmap. eapply Forall_impl; [done|]. apply (pi_score_zero Q HQ).
  - unfold submitGuess. destruct (findBySocket _ _) as [[i p]|]; [|done].
    destruct (Room.guesses room); [|done].
    rewrite and_then_ret. case_bool_decide; [|done]. cbn [next].
    by apply processRoundResults_players.
  - unfold newGame. destruct (negb (isHostSocket _ _)); [done|]. simpl.
    apply Forall_fmap. eapply Forall_impl; [done|]. apply (pi_reset Q HQ).
  - unfold removePlayer.
    assert (Hrem : Forall Q (filter (λ p, Player.id p ≠ Player.id currentPlayer)
                               (Room.players room))).
    { apply Forall_forall. intros p [_ Hp]%list_elem_of_filter.
      by eapply (proj1 (Forall_forall _ _) Hall). }
    destruct (filter _ _) as [|first rest]; [done|].
    destruct (Player.isHost currentPlayer); simpl; [|done].
    apply Forall_cons in Hrem as [? ?]. constructor; [|done].
    by apply (pi_isHost Q HQ).
  - done.
  - unfold advanceRound. by destruct isLastRound.
Qed.

Lemma reachable_players (Q : Player.t → Prop) s ref room player :
  PlayerInvariant Q →
  reachable s → heap s !! ref = Some room → player ∈ Room.players room → Q player.
Proof.
  intros HQ Hs Href Hp.
  assert (H : Forall (λ room, Forall Q (Room.players room)) (heap s)).
  { apply reachable_preserves; [| |done].
    - intros. by apply applyOp_players.
    - intros. repeat constructor. apply (pi_new Q HQ). }
  rewrite Forall_lookup in H. specialize (H _ _ Href).
  by eapply (proj1 (Forall_forall _ _) H).
Qed.

(** X19.  In every reachable state, for every player of every room object,
    [imageCount] is the number of stored images and the score is a multiple
    of 100. *)
Theorem reachable_player_fields s ref room player :
  reachable s → heap s !! ref = Some room → player ∈ Room.players room →
  Player.imageCount player = length (Player.images player) ∧
  (100 | Player.score player).
Proof.
  intros Hs Href Hp.
  apply (reachable_players
           (λ p, Player.imageCount p = length (Player.images p) ∧ (100 | Player.score p))
           s ref room player); [|done..].
  constructor; simpl.
  - intros. split; [done|apply Nat.divide_0_r].
  - tauto.
  - tauto.
  - tauto.
  - intros v p [_ ?]. done.
  - intros p [? _]. split; [done|apply Nat.divide_0_r].
  - intros p [? ?]. split; [done|].
    apply Nat.divide_add_r; [done|]. apply Nat.divide_refl.
  - intros. split; [done|apply Nat.divide_0_r].
Qed.

Lemma processRoundResults_fields self room :
  let room' := next (processRoundResults self room) in
  Room.id room' = Room.id room ∧
  Room.gameState room' = Room.gameState room ∧
  Room.currentImageIndex room' = Room.currentImageIndex room ∧
  Room.allImages room' = Room.allImages room ∧
  Room.syncComplete room' = Room.syncComplete room ∧
  Room.syncProgress room' = Room.syncProgress room ∧
  Room.guesses room' = Room.guesses room.
Proof.
  cbn zeta. by destruct (processRoundResults_cases self room)
    as [->|(? & ? & ? & ? & ? & ->)].
Qed.

Lemma applyOp_phaseOK self op room :
  phaseOK room → phaseOK (next (applyOp self op room)).
Proof.
  intros [Hres Hplay]. destruct op; simpl.
  - done.
  - unfold reconnectToRoom. by destruct (findById _ _) as [[??]|].
  - unfold updateName. by destruct (findBySocket _ _) as [[??]|].
  - unfold submitImages. destruct (findBySocket _ _) as [[??]|]; [|done].
    rewrite and_then_ret. destruct (forallb _ _); split; simpl; done.
  - unfold imagesSynced. destruct (findBySocket _ _) as [[??]|]; [|done].
    cbn zeta. destruct (_ && _); [|done].
    split; [done|]. simpl. intros E. by destruct (Hplay E).
  - unfold startGame.
    destruct (negb (isHostSocket _ _)); [done|].
    destruct (negb (Room.syncComplete room)) eqn:Hs; [done|].
    apply negb_false_iff in Hs. split; simpl; [done|]. eauto.
  - unfold submitGuess. destruct (findBySocket _ _) as [[??]|]; [|done].
    destruct (Room.guesses room) eqn:Hg;
      [|unfold phaseOK; simpl; rewrite Hg; by split].
    rewrite and_then_ret. case_bool_decide; cbn [next].
    + destruct (processRoundResults_fields self
                  (Room.set_guesses
                     (Some (<[imageIndex:=<[Player.id t:=guessedPlayerId]>
                                            (default ∅ (g !! imageIndex))]> g)) room))
        as (_ & Hgs & _ & _ & Hsc & _ & Hgu).
      unfold phaseOK. rewrite Hgs, Hsc, Hgu. simpl.
      split; [done|]. intros E. destruct (Hplay E). eauto.
    + split; [done|]. simpl. intros E. destruct (Hplay E). eauto.
  - unfold newGame. by destruct (negb (isHostSocket _ _)).
  - unfold removePlayer. destruct (filter _ _); [done|].
    by destruct (Player.isHost currentPlayer).
  - done.
  - unfold advanceRound. destruct isLastRound; [done|]. done.
Qed.

(** X20.  In every reachable state no room object is in the RESULTS state, and
    a room object that is PLAYING has [syncComplete] set and a guess map. *)
Theorem reachable_phase s ref room :
  reachable s → heap s !! ref = Some room →
  Room.gameState room ≠ RESULTS ∧
  (Room.gameState room = PLAYING →
   Room.syncComplete room = true ∧ is_Some (Room.guesses room)).
Proof.
  intros Hs Href.
  assert (H : Forall phaseOK (heap s)).
  { apply reachable_preserves; [| |done].
    - intros. by apply applyOp_phaseOK.
    - intros. by split. }
  rewrite Forall_lookup in H. by apply (H _ _ Href).
Qed.

Section JsMapKeys.
Context {V : Type}.
Implicit Types (m : list (string * V)) (k : string) (v : V).

Lemma Map_get_None m k : Map_get m k = None ↔ k ∉ m.*1.
Proof.
  induction m as [|[k0 v0] m IH]; simpl.
  - split; [intros _ ?%elem_of_nil; done|done].
  - rewrite not_elem_of_cons. destruct (decide (k0 = k)) as [->|Hne].
    + split; [done|]. by intros [? _].
    + rewrite IH. split; [by intros; split|by intros [_ ?]].
Qed.

Lemma Map_set_keys m k v :
  (Map_set m k v).*1 = if decide (k ∈ m.*1) then m.*1 else m.*1 ++ [k].
Proof.
  induction m as [|[k0 v0] m IH]; [done|]. cbn [Map_set].
  destruct (decide (k0 = k)) as [->|Hne]; csimpl.
  - rewrite decide_True; [done|left].
  - rewrite IH. destruct (decide (k ∈ m.*1)).
    + rewrite decide_True; [done|by right].
    + rewrite decide_False; [done|]. by intros [?|?]%elem_of_cons.
Qed.

Lemma Map_set_keys_NoDup m k v : NoDup m.*1 → NoDup (Map_set m k v).*1.
Proof.
  intros Hnd. rewrite Map_set_keys. case_decide; [done|].
  apply NoDup_app. split_and!; [done| |apply NoDup_singleton].
  intros x Hx ->%list_elem_of_singleton. done.
Qed.

Lemma Map_delete_keys_NoDup m k : NoDup m.*1 → NoDup (Map_delete m k).*1.
Proof.
  intros Hnd. eapply sublist_NoDup; [done|]. apply fmap_sublist, Map_delete_sublist.
Qed.

Lemma Map_get_delete_eq m k : NoDup m.*1 → Map_get (Map_delete m k) k = None.
Proof.
  induction m as [|[k0 v0] m IH]; simpl; [done|].
  intros [Hk0 Hnd]%NoDup_cons. destruct (decide (k0 = k)) as [->|Hne]; simpl.
  - by apply Map_get_None.
  - rewrite decide_False by done. by apply IH.
Qed.

Lemma Map_get_delete_ne m k k' : k ≠ k' → Map_get (Map_delete m k) k' = Map_get m k'.
Proof.
  intros Hne. induction m as [|[k0 v0] m IH]; simpl; [done|].
  destruct (decide (k0 = k)) as [->|Hne0]; simpl.
  - by rewrite decide_False.
  - by rewrite IH.
Qed.
End JsMapKeys.

Lemma applyOp_id self op room : Room.id (next (applyOp self op room)) = Room.id room.
Proof.
  destruct op; simpl; try done.
  - unfold reconnectToRoom. by destruct (findById _ _) as [[??]|].
  - unfold updateName. by destruct (findBySocket _ _) as [[??]|].
  - unfold submitImages. destruct (findBySocket _ _) as [[??]|]; [|done].
    rewrite and_then_ret. by destruct (forallb _ _).
  - unfold imagesSynced. destruct (findBySocket _ _) as [[??]|]; [|done].
    cbn zeta. by destruct (_ && _).
  - unfold startGame. destruct (negb (isHostSocket _ _)); [done|].
    by destruct (negb (Room.syncComplete room)).
  - unfold submitGuess. destruct (findBySocket _ _) as [[??]|]; [|done].
    destruct (Room.guesses room); [|done].
    rewrite and_then_ret. case_bool_decide; [|done]. cbn [next].
    by destruct (processRoundResults_fields self
                (Room.set_guesses
                   (Some (<[imageIndex:=<[Player.id t:=guessedPlayerId]>
                                          (default ∅ (g !! imageIndex))]> g)) room))
      as (-> & _).
  - unfold newGame. by destruct (negb (isHostSocket _ _)).
  - unfold removePlayer. destruct (filter _ _); [done|].
    by destruct (Player.isHost currentPlayer).
  - unfold advanceRound. by destruct isLastRound.
Qed.

(** A room object never changes its [id]. *)
Lemma handle_heap_id s i ref room :
  heap s !! ref = Some room →
  ∃ room', heap (next (handle s i)) !! ref = Some room' ∧ Room.id room' = Room.id room.
Proof.
  intros Href.
  destruct (handle_acts_by_ops s i ref room Href) as [H|(op & H & _)].
  - by exists room.
  - eexists. split; [done|]. apply applyOp_id.
Qed.

(** Only create-room adds to the registry and only the disconnect timer
    deletes from it. *)
Lemma handle_rooms s i :
  rooms (next (handle s i)) = rooms s ∨
  (∃ sid draws, i = create_room sid draws ∧
     rooms (next (handle s i))
     = Map_set (rooms s) (generateRoomCode draws) (length (heap s))) ∨
  (∃ roomId playerId sid, i = timer_fires (grace_timer roomId playerId sid) ∧
     rooms (next (handle s i)) = Map_delete (rooms s) roomId).
Proof.
  assert (Hon : ∀ roomId nf h, rooms (next (onRoom s roomId nf h)) = rooms s).
  { intros. unfold onRoom. by destruct (getRoom s roomId) as [[??]|]. }
  assert (Hob : ∀ ref h, rooms (next (onObject s ref h)) = rooms s).
  { intros. unfold onObject. by destruct (heap s !! ref). }
  destruct i as [| | | | | | | | | |t]; simpl; rewrite ?Hon; auto.
  - right. left. eauto.
  - left. unfold joinRoom. destruct (getRoom s roomId) as [[??]|]; [|done].
    by case_bool_decide.
  - destruct t; simpl; rewrite ?Hob; auto.
    unfold fireGrace. destruct (getRoom s roomId) as [[??]|]; [|by left].
    destruct (findById _ _) as [[??]|]; [|by left].
    case_bool_decide; [|by left].
    destruct (removePlayer _ _ _) as [o [|]]; simpl; [|by left].
    right. right. eauto.
Qed.

Lemma handle_registryOK s i : registryOK s → registryOK (next (handle s i)).
Proof.
  intros [Hnd Hall].
  assert (Hold : Forall (λ e, ∃ room, heap (next (handle s i)) !! e.2 = Some room
                               ∧ Room.id room = e.1) (rooms s)).
  { eapply Forall_impl; [done|]. simpl. intros e (room & He & Hid).
    destruct (handle_heap_id s i _ _ He) as (room' & ? & ?).
    exists room'. split; [done|congruence]. }
  unfold registryOK.
  destruct (handle_rooms s i)
    as [E|[(sid & draws & Hi & E)|(roomId & pid & sid & Hi & E)]]; rewrite E.
  - done.
  - split; [by apply Map_set_keys_NoDup|].
    apply Map_set_Forall; [done|]. rewrite Hi. simpl.
    eexists. split; [by apply list_lookup_middle|done].
  - split; [by apply Map_delete_keys_NoDup|].
    apply Forall_forall. intros e He. rewrite Forall_forall in Hold. apply Hold.
    eapply elem_of_sublist; [done|apply Map_delete_sublist].
Qed.

Lemma reachable_registryOK s : reachable s → registryOK s.
Proof.
  induction 1 as [|s i _ IH _]; [by split; constructor|by apply handle_registryOK].
Qed.

(** X2.  In every reachable state a code that resolves does so to a room
    object that carries that code as its [id] and has at least one player,
    and no other code resolves to the same object. *)
Theorem registered_room_sound s code ref room :
  reachable s → getRoom s code = Some (ref, room) →
  Room.id room = code ∧ Room.players room ≠ [] ∧
  (∀ code', (fst <$> getRoom s code') = Some ref → code' = code).
Proof.
  intros Hs [Hreg Href]%getRoom_Some.
  pose proof (reachable_registryOK s Hs) as [_ Hall].
  pose proof (reachable_invariant s Hs) as (Hrefs & Hne & _).
  apply Map_get_elem_of in Hreg as Hin.
  rewrite Forall_forall in Hall, Hne.
  destruct (Hall _ Hin) as (room1 & H1 & Hid).
  destruct (Hne _ Hin) as (room2 & H2 & Hpl). simpl in *. simplify_eq.
  split_and!; [done..|].
  intros code' Hget'. destruct (getRoom s code') as [[ref' room']|] eqn:E; [|done].
  simpl in Hget'. simplify_eq. apply getRoom_Some in E as [Hreg' Href'].
  apply Map_get_elem_of in Hreg'.
  destruct (Hall _ Hreg') as (room3 & H3 & Hid3). simpl in *. by simplify_eq.
Qed.

(** Replacing the object found by one that still satisfies the test does not
    change what [find] finds. *)
Lemma list_find_insert_found {A} (P : A → Prop) `{∀ x, Decision (P x)}
    (l : list A) i x y :
  list_find P l = Some (i, x) → P y → list_find P (<[i := y]> l) = Some (i, y).
Proof.
  intros (Hi & Hx & Hbefore)%list_find_Some Hy. apply list_find_Some.
  split_and!; [|done|].
  - apply list_lookup_insert_eq. by eapply lookup_lt_Some.
  - intros j z Hj Hlt. rewrite list_lookup_insert_ne in Hj by lia. eauto.
Qed.

Lemma storeRoom_getRoom s roomId ref room room' :
  getRoom s roomId = Some (ref, room) →
  getRoom (storeRoom s ref room') roomId = Some (ref, room').
Proof.
  intros [Hreg Href]%getRoom_Some. apply getRoom_Some. split; [done|]. simpl.
  apply list_lookup_insert_eq. by eapply lookup_lt_Some.
Qed.

(** Two codes of the registry never share a room object. *)
Lemma registry_ref_inj s code code' ref :
  reachable s →
  Map_get (rooms s) code = Some ref → Map_get (rooms s) code' = Some ref →
  code = code'.
Proof.
  intros Hs H1 H2. pose proof (reachable_registryOK s Hs) as [_ Hall].
  rewrite Forall_forall in Hall.
  destruct (Hall _ (Map_get_elem_of _ _ _ H1)) as (r1 & Hr1 & Hid1).
  destruct (Hall _ (Map_get_elem_of _ _ _ H2)) as (r2 & Hr2 & Hid2).
  simpl in *. congruence.
Qed.

(** X3.  join-room with an unknown code, or for a room that is not in LOBBY,
    sends one error to the caller ("Room not found", "Game already in
    progress") and changes nothing: no player is added and no identifier is
    issued. *)
Theorem join_room_refused s sid roomId name :
  match getRoom s roomId with
  | None =>
      handle s (join_room sid roomId name)
      = ret s [to_socket sid (error "Room not found")]
  | Some (ref, room) =>
      if decide (Room.gameState room = LOBBY) then True
      else handle s (join_room sid roomId name)
           = ret s [to_socket sid (error "Game already in progress")]
  end.
Proof.
  simpl. unfold joinRoom.
  destruct (getRoom s roomId) as [[ref room]|]; [|done].
  case_decide; [done|]. by rewrite bool_decide_true.
Qed.

(** X4.  join-room for a room in LOBBY appends one player that is not host,
    with no images and score 0, under an identifier that no player of any
    room object has; it issues one identifier and leaves every other room
    object alone. *)
Theorem join_room_adds_fresh_player s sid roomId name ref room :
  reachable s → getRoom s roomId = Some (ref, room) → Room.gameState room = LOBBY →
  let o := handle s (join_room sid roomId name) in
  let player := Player.mk (uuidCount s) sid name false 0 0 [] in
  threw o = false ∧
  getRoom (next o) roomId
    = Some (ref, Room.set_players (Room.players room ++ [player]) room) ∧
  uuidCount (next o) = S (uuidCount s) ∧
  (∀ ref' room' q, heap s !! ref' = Some room' → q ∈ Room.players room' →
     Player.id q ≠ Player.id player) ∧
  (∀ ref' room', ref' ≠ ref → heap s !! ref' = Some room' →
     heap (next o) !! ref' = Some room').
Proof.
  intros Hs Hget Hstate. simpl. unfold joinRoom. rewrite Hget.
  rewrite bool_decide_false by (by intros ?). simpl.
  apply getRoom_Some in Hget as [Hreg Href].
  split_and!; [done| |done| |].
  - apply getRoom_Some. split; [done|]. simpl.
    apply list_lookup_insert_eq. by eapply lookup_lt_Some.
  - intros ref' room' q Href' Hq.
    pose proof (reachable_invariant s Hs) as (_ & _ & Hok).
    rewrite Forall_lookup in Hok. destruct (Hok _ _ Href') as (_ & Hlt & _).
    rewrite Forall_forall in Hlt.
    assert (Hin : ident q ∈ skeleton room') by by apply list_elem_of_fmap_2.
    apply Hlt in Hin. simpl in Hin. lia.
  - intros ref' room' Hne Href'. by rewrite list_lookup_insert_ne.
Qed.

(** X5.  reconnect-to-room does nothing at all (no output, same state) when
    the code or the player identifier is unknown.  Otherwise it rebinds the
    socket of that player only, the player is still found under the
    identifier, and the reply carries resume data exactly when the room is
    PLAYING with a non-empty deck. *)
Theorem reconnect_outcome s sid roomId playerId :
  match getRoom s roomId with
  | None => handle s (reconnect_to_room sid roomId playerId) = ret s []
  | Some (ref, room) =>
      match findById playerId (Room.players room) with
      | None => handle s (reconnect_to_room sid roomId playerId) = ret s []
      | Some (i, player) =>
          let o := handle s (reconnect_to_room sid roomId playerId) in
          let room' :=
            Room.set_players
              (<[i := Player.set_socketId sid player]> (Room.players room)) room in
          threw o = false ∧
          getRoom (next o) roomId = Some (ref, room') ∧
          findById playerId (Room.players room')
            = Some (i, Player.set_socketId sid player) ∧
          ∃ resume,
            emitted o =
              [socket_join sid roomId;
               to_socket sid (reconnected roomId playerId (sanitizeRoom room')
                                (Room.gameState room) resume)] ∧
            (is_Some resume ↔
               Room.gameState room = PLAYING ∧ Room.allImages room ≠ [])
      end
  end.
Proof.
  destruct (getRoom s roomId) as [[ref room]|] eqn:Hget.
  - destruct (findById playerId (Room.players room)) as [[i player]|] eqn:Hfind.
    + simpl. unfold onRoom. rewrite Hget. unfold reconnectToRoom. rewrite Hfind.
      cbn zeta. cbn [next emitted threw ret].
      split_and!; [done|by eapply storeRoom_getRoom| |].
      * simpl. apply (list_find_insert_found (λ p, Player.id p = playerId) _ _ player);
          [done|]. simpl. by apply (findById_lookup _ _ _ _ Hfind).
      * eexists. split; [reflexivity|]. simpl.
        destruct (Room.gameState room), (Room.allImages room); simpl;
          split; try (intros [? ?]; done); try (intros [? [=]]; done);
          try (intros [[=] ?]; done); eauto.
    + simpl. unfold onRoom. rewrite Hget. unfold reconnectToRoom. rewrite Hfind.
      simpl. apply getRoom_Some in Hget as [_ Href]. by rewrite storeRoom_id.
  - simpl. unfold onRoom. by rewrite Hget.
Qed.

(** X6.  Once a player has reconnected from another socket, the grace timer
    armed for the socket that dropped does nothing when it fires. *)
Theorem reconnect_voids_grace_timer s sid sid' roomId playerId ref room i player :
  getRoom s roomId = Some (ref, room) →
  findById playerId (Room.players room) = Some (i, player) →
  sid' ≠ sid →
  let s1 := next (handle s (reconnect_to_room sid' roomId playerId)) in
  handle s1 (timer_fires (grace_timer roomId playerId sid)) = ret s1 [].
Proof.
  intros Hget Hfind Hne. simpl. unfold onRoom. rewrite Hget.
  unfold reconnectToRoom. rewrite Hfind. cbn zeta. cbn [next ret].
  unfold fireGrace. erewrite storeRoom_getRoom by done.
  cbn [Room.players Room.set_players]. unfold findById.
  rewrite (list_find_insert_found (λ p, Player.id p = playerId) _ _ player
             (Player.set_socketId sid' player)); [|done|].
  - simpl. by rewrite bool_decide_false.
  - simpl. by apply (findById_lookup _ _ _ _ Hfind).
Qed.

(** X7.  When the grace timer fires for a player still bound to the dropped
    socket, player-left is broadcast first and the player is removed.  If
    no player remains the code no longer resolves; otherwise the code
    resolves to the same object, which holds the other players in their
    order, not the removed identifier, and exactly one host.  Every other
    code resolves as before. *)
Theorem grace_timer_removes_player s roomId playerId sid ref room i player :
  reachable s →
  getRoom s roomId = Some (ref, room) →
  findById playerId (Room.players room) = Some (i, player) →
  Player.socketId player = sid →
  let o := handle s (timer_fires (grace_timer roomId playerId sid)) in
  let remaining := filter (λ p, Player.id p ≠ playerId) (Room.players room) in
  threw o = false ∧
  head (emitted o) = Some (to_room roomId (player_left playerId (Player.name player))) ∧
  (remaining = [] → getRoom (next o) roomId = None) ∧
  (remaining ≠ [] →
   ∃ room', getRoom (next o) roomId = Some (ref, room') ∧
            (Player.id <$> Room.players room') = (Player.id <$> remaining) ∧
            (playerId ∉ Player.id <$> Room.players room') ∧
            hostCount room' = 1) ∧
  (∀ code, code ≠ roomId → getRoom (next o) code = getRoom s code).
Proof.
  intros Hs Hget Hfind Hsock.
  pose proof (fireGrace_invariant roomId playerId sid s (reachable_invariant s Hs)) as Hinv'.
  pose proof (reachable_registryOK s Hs) as [Hkeys _].
  assert (Hother : ∀ code ref', code ≠ roomId →
            Map_get (rooms s) code = Some ref' → ref' ≠ ref).
  { intros code ref' Hne Hreg' ->. apply Hne.
    apply getRoom_Some in Hget as [Hreg _]. by eapply registry_ref_inj. }
  simpl in *. unfold fireGrace in *. rewrite Hget in *. rewrite Hfind in *.
  rewrite bool_decide_true in * by done.
  apply findById_lookup in Hfind as [Hi Hid]. subst playerId.
  apply getRoom_Some in Hget as [Hreg Href].
  unfold removePlayer in *.
  destruct (filter _ (Room.players room)) as [|first rest] eqn:Hrem.
  - cbn [next emitted threw ret fst snd] in *.
    split_and!; [done|done| |done|].
    + intros _. unfold getRoom. simpl. by rewrite Map_get_delete_eq.
    + intros code Hne. unfold getRoom. simpl.
      rewrite Map_get_delete_ne by done.
      destruct (Map_get (rooms s) code) as [ref'|] eqn:E; [|done]. simpl.
      rewrite list_lookup_insert_ne; [done|]. intros ->. by eapply Hother.
  - assert (Hnotin : Player.id player ∉ (Player.id <$> first :: rest)).
    { rewrite <-Hrem. intros (q & Hq & [Hne _]%list_elem_of_filter)%list_elem_of_fmap.
      congruence. }
    assert (Hframe : ∀ room' code, code ≠ roomId →
              getRoom (mkServer (<[ref:=room']> (heap s)) (rooms s) (uuidCount s)) code
              = getRoom s code).
    { intros room' code Hne. unfold getRoom. simpl.
      destruct (Map_get (rooms s) code) as [ref'|] eqn:E; [|done]. simpl.
      rewrite list_lookup_insert_ne; [done|]. intros ->. by eapply Hother. }
    assert (Hhost : ∀ room', Room.players room' ≠ [] →
              invariant (mkServer (<[ref:=room']> (heap s)) (rooms s) (uuidCount s)) →
              hostCount room' = 1).
    { intros room' Hne (_ & _ & Hok). simpl in Hok. rewrite Forall_lookup in Hok.
      eapply roomOK_hostCount; [|done]. eapply Hok.
      apply list_lookup_insert_eq. by eapply lookup_lt_Some. }
    destruct (Player.isHost player); cbn [next emitted threw ret fst snd] in *.
    + split_and!; [done|done|done| |by apply Hframe].
      intros _. eexists. split_and!.
      * apply getRoom_Some. split; [done|]. simpl.
        apply list_lookup_insert_eq. by eapply lookup_lt_Some.
      * done.
      * done.
      * by apply Hhost.
    + split_and!; [done|done|done| |by apply Hframe].
      intros _. eexists. split_and!.
      * apply getRoom_Some. split; [done|]. simpl.
        apply list_lookup_insert_eq. by eapply lookup_lt_Some.
      * done.
      * done.
      * by apply Hhost.
Qed.

Lemma disconnect_scan_spec sid heap entries :
  match disconnect_scan sid heap entries with
  | [] => Forall (λ e, ∀ room, heap !! e.2 = Some room →
                       findBySocket sid (Room.players room) = None) entries
  | [set_timeout (grace_timer roomId playerId sid') delay] =>
      sid' = sid ∧ delay = 5 * 60 * 1000 ∧
      ∃ ref room i player,
        (roomId, ref) ∈ entries ∧ heap !! ref = Some room ∧
        findBySocket sid (Room.players room) = Some (i, player) ∧
        Player.id player = playerId
  | _ => False
  end.
Proof.
  induction entries as [|[roomId ref] entries IH]; cbn [disconnect_scan];
    [constructor|].
  assert (Hskip : (∀ room, heap !! ref = Some room →
                     findBySocket sid (Room.players room) = None) →
    match disconnect_scan sid heap entries with
    | [] => Forall (λ e, ∀ room, heap !! e.2 = Some room →
                         findBySocket sid (Room.players room) = None)
              ((roomId, ref) :: entries)
    | [set_timeout (grace_timer roomId0 playerId sid') delay] =>
        sid' = sid ∧ delay = 5 * 60 * 1000 ∧
        ∃ ref0 room i player,
          (roomId0, ref0) ∈ (roomId, ref) :: entries ∧ heap !! ref0 = Some room ∧
          findBySocket sid (Room.players room) = Some (i, player) ∧
          Player.id player = playerId
    | _ => False
    end).
  { intros Hnone.
    destruct (disconnect_scan sid heap entries) as [|[| | | |[] ?] []]; try done.
    - by constructor.
    - destruct IH as (? & ? & ref' & room' & i' & p' & ? & ?).
      split_and!; [done..|]. exists ref', room', i', p'. split; [by right|done]. }
  destruct (heap !! ref) as [room|] eqn:Href; cbn [mbind option_bind].
  - destruct (findBySocket sid (Room.players room)) as [[i player]|] eqn:Hf.
    + split_and!; [done|done|]. exists ref, room, i, player.
      split_and!; [left|done..].
    + apply Hskip. intros room0 ?. by simplify_eq.
  - apply Hskip. intros room0 ?. by simplify_eq.
Qed.

(** X8.  The disconnect handler changes no state.  It arms nothing when no
    registered room has a player on the socket, and otherwise exactly one
    grace timer of five minutes, for a player of a registered room that is
    bound to that socket. *)
Theorem disconnect_arms_one_timer s sid :
  let o := handle s (disconnected sid) in
  next o = s ∧ threw o = false ∧
  ((emitted o = [] ∧
    ∀ roomId ref room, getRoom s roomId = Some (ref, room) →
                       findBySocket sid (Room.players room) = None) ∨
   (∃ roomId ref room i player,
      emitted o
        = [set_timeout (grace_timer roomId (Player.id player) sid) (5 * 60 * 1000)] ∧
      (roomId, ref) ∈ rooms s ∧ heap s !! ref = Some room ∧
      findBySocket sid (Room.players room) = Some (i, player))).
Proof.
  cbn [handle]. unfold disconnect, ret. cbn [next threw emitted].
  split_and!; [done..|].
  pose proof (disconnect_scan_spec sid (heap s) (rooms s)) as H.
  destruct (disconnect_scan sid (heap s) (rooms s)) as [|[| | | |[] ?] []]; try done.
  - left. split; [done|]. intros roomId ref room [Hreg Href]%getRoom_Some.
    rewrite Forall_forall in H. by apply (H _ (Map_get_elem_of _ _ _ Hreg)).
  - right. destruct H as (-> & -> & ref & room & i & player & ? & ? & ? & <-).
    by exists roomId, ref, room, i, player.
Qed.

Lemma onRoom_unchanged s roomId notFound h out :
  (∀ ref room, getRoom s roomId = Some (ref, room) → h ref room = ret room out) →
  onRoom s roomId notFound h = ret s notFound ∨ onRoom s roomId notFound h = ret s out.
Proof.
  intros Hh. unfold onRoom.
  destruct (getRoom s roomId) as [[ref room]|] eqn:Hget; [|by left].
  right. rewrite (Hh _ _ eq_refl). simpl.
  apply getRoom_Some in Hget as [_ Href]. by rewrite storeRoom_id.
Qed.

(** X9.  update-name, submit-images, images-synced, start-game, submit-guess
    and new-game from a socket that is bound to no player of the room they
    name (or that name no room) leave the server state as it is, do not
    throw, and send nothing but, at most, an error acknowledgment. *)
Theorem stranger_commands_change_nothing s i sid roomId :
  commandOf i = Some (sid, roomId) →
  (∀ ref room, getRoom s roomId = Some (ref, room) →
               findBySocket sid (Room.players room) = None) →
  next (handle s i) = s ∧ threw (handle s i) = false ∧
  (emitted (handle s i) = [] ∨ ∃ message, emitted (handle s i) = [callback (ack_error message)]).
Proof.
  intros Hi Hnone.
  assert (Hret : ∀ out, handle s i = ret s out →
    next (handle s i) = s ∧ threw (handle s i) = false ∧ emitted (handle s i) = out).
  { by intros out ->. }
  assert (Hfin : ∀ nf out,
    (nf = [] ∨ ∃ m, nf = [callback (ack_error m)]) →
    (out = [] ∨ ∃ m, out = [callback (ack_error m)]) →
    handle s i = ret s nf ∨ handle s i = ret s out →
    next (handle s i) = s ∧ threw (handle s i) = false ∧
    (emitted (handle s i) = [] ∨ ∃ m, emitted (handle s i) = [callback (ack_error m)])).
  { intros nf out Hnf Hout [E|E]; rewrite E; simpl; auto. }
  destruct i; simplify_eq/=.
  - apply (Hfin [] []); [auto..|]. apply onRoom_unchanged.
    intros ref room Hget. unfold updateName. by rewrite (Hnone _ _ Hget).
  - eapply (Hfin _ [callback (ack_error "Player not found")]); [eauto..|].
    apply onRoom_unchanged.
    intros ref room Hget. unfold submitImages. by rewrite (Hnone _ _ Hget).
  - apply (Hfin [] []); [auto..|]. apply onRoom_unchanged.
    intros ref room Hget. unfold imagesSynced. by rewrite (Hnone _ _ Hget).
  - eapply (Hfin _ [callback (ack_error "Only the host can start the game")]); [eauto..|].
    apply onRoom_unchanged.
    intros ref room Hget. unfold startGame, isHostSocket. by rewrite (Hnone _ _ Hget).
  - apply (Hfin [] []); [auto..|]. apply onRoom_unchanged.
    intros ref room Hget. unfold submitGuess. by rewrite (Hnone _ _ Hget).
  - apply (Hfin [] []); [auto..|]. apply onRoom_unchanged.
    intros ref room Hget. unfold newGame, isHostSocket. by rewrite (Hnone _ _ Hget).
Qed.

(** X10.  From a socket that is not the host's, start-game is answered with
    the error "Only the host can start the game" and new-game with nothing;
    neither changes the state. *)
Theorem host_only_commands s sid roomId ref room :
  getRoom s roomId = Some (ref, room) →
  isHostSocket sid room = false →
  handle s (start_game sid roomId)
    = ret s [callback (ack_error "Only the host can start the game")] ∧
  handle s (new_game sid roomId) = ret s [].
Proof.
  intros Hget Hhost. simpl. unfold onRoom. rewrite Hget.
  unfold startGame, newGame. rewrite Hhost. simpl.
  apply getRoom_Some in Hget as [_ Href]. by rewrite storeRoom_id.
Qed.

Lemma isHostSocket_fmap (f : Player.t → Player.t) sid room players' :
  (∀ p, Player.socketId (f p) = Player.socketId p) →
  (∀ p, Player.isHost (f p) = Player.isHost p) →
  isHostSocket sid (Room.set_players (f <$> Room.players room) players')
  = isHostSocket sid room.
Proof.
  intros Hs Hh. unfold isHostSocket, findBySocket. simpl.
  rewrite list_find_fmap.
  rewrite (list_find_ext _ (λ p, Player.socketId p = sid)); last first.
  { intros p. simpl. by rewrite Hs. }
  destruct (list_find _ _) as [[i p]|]; simpl; [apply Hh|done].
Qed.

(** X11.  new-game from the host puts the room back to LOBBY with an empty
    deck, cleared sync state, an empty guess map and every player reset,
    keeps who is in the room and who is host, and broadcasts
    new-game-started; a start-game that follows is refused with "Images not
    synced yet". *)
Theorem new_game_requires_new_sync s sid roomId ref room :
  getRoom s roomId = Some (ref, room) →
  isHostSocket sid room = true →
  let o := handle s (new_game sid roomId) in
  let room' :=
    Room.mk (Room.id room) (Player.reset <$> Room.players room)
            LOBBY 0 [] false ∅ (Some ∅) in
  threw o = false ∧
  getRoom (next o) roomId = Some (ref, room') ∧
  emitted o = [to_room roomId (new_game_started (sanitizeRoom room'))] ∧
  skeleton room' = skeleton room ∧
  handle (next o) (start_game sid roomId)
    = ret (next o) [callback (ack_error "Images not synced yet")].
Proof.
  intros Hget Hhost o room'.
  assert (Hng : newGame roomId sid room
            = ret room' [to_room roomId (new_game_started (sanitizeRoom room'))]).
  { unfold newGame. by rewrite Hhost. }
  assert (Ho : o = ret (storeRoom s ref room')
                     [to_room roomId (new_game_started (sanitizeRoom room'))]).
  { unfold o. cbn [handle]. unfold onRoom. by rewrite Hget, Hng. }
  rewrite Ho. cbn [next emitted threw ret].
  split_and!; [done|by eapply storeRoom_getRoom|done| |].
  - unfold skeleton. simpl. rewrite <-list_fmap_compose. by apply list_fmap_ext.
  - cbn [handle]. unfold onRoom. erewrite storeRoom_getRoom by done.
    unfold startGame.
    assert (Hh : isHostSocket sid room' = true).
    { rewrite <-Hhost.
      apply (isHostSocket_fmap Player.reset sid room
               (Room.mk (Room.id room) [] LOBBY 0 [] false ∅ (Some ∅))); done. }
    rewrite Hh. simpl. f_equal. unfold storeRoom. simpl.
    by rewrite list_insert_insert_eq.
Qed.

Lemma set_syncProgress_same room :
  Room.set_syncProgress (Room.syncProgress room) room = room.
Proof. by destruct room. Qed.

(** X12.  A second images-synced with the same [batchIndex] from the same
    socket leaves the room as the first one left it and does not broadcast
    sync-complete. *)
Theorem duplicate_acknowledgment_changes_nothing roomId sid batchIndex room :
  let room1 := next (imagesSynced roomId sid batchIndex room) in
  let o := imagesSynced roomId sid batchIndex room1 in
  next o = room1 ∧
  to_room roomId sync_complete ∉ emitted o.
Proof.
  cbn zeta.
  destruct (findBySocket sid (Room.players room)) as [[i player]|] eqn:Hfind.
  2:{ assert (E : imagesSynced roomId sid batchIndex room = ret room []).
      { unfold imagesSynced. by rewrite Hfind. }
      rewrite E. cbn [next ret]. rewrite E. simpl.
      split; [done|]. by intros ?%elem_of_nil. }
  set (m1 := <[Player.id player := {[batchIndex]} ∪
                 default ∅ (Room.syncProgress room !! Player.id player)]>
               (Room.syncProgress room)).
  set (r := next (imagesSynced roomId sid batchIndex room)).
  assert (Hr : Room.players r = Room.players room ∧ Room.syncProgress r = m1 ∧
               (Room.syncComplete r = false → allSynced r = false)).
  { unfold r, imagesSynced. rewrite Hfind. cbn zeta. fold m1.
    destruct (allSynced (Room.set_syncProgress m1 room)
              && negb (Room.syncComplete (Room.set_syncProgress m1 room))) eqn:Hc;
      cbn [next ret]; split_and!; try done.
    intros Hsc. simpl in Hsc, Hc. rewrite Hsc in Hc. simpl in Hc.
    by rewrite andb_true_r in Hc. }
  destruct Hr as (Hp & Hm & Hflag).
  unfold imagesSynced. rewrite Hp, Hfind. cbn zeta.
  assert (Hm1 : <[Player.id player := {[batchIndex]} ∪
                    default ∅ (Room.syncProgress r !! Player.id player)]>
                  (Room.syncProgress r) = Room.syncProgress r).
  { rewrite Hm. unfold m1. rewrite lookup_insert_eq. simpl.
    rewrite insert_insert_eq. f_equal.
    rewrite (assoc_L (∪)). by rewrite (idemp_L (∪)). }
  rewrite Hm1, set_syncProgress_same.
  destruct (Room.syncComplete r) eqn:Hsc.
  - rewrite andb_false_r. simpl. split; [done|].
    by intros [=]%list_elem_of_singleton.
  - rewrite Hflag by done. simpl. split; [done|].
    by intros [=]%list_elem_of_singleton.
Qed.


Lemma reachable_phaseOK s ref room :
  reachable s → heap s !! ref = Some room → phaseOK room.
Proof.
  intros Hs Href.
  assert (H : Forall phaseOK (heap s)).
  { apply reachable_preserves; [| |done].
    - intros. by apply applyOp_phaseOK.
    - intros. by split. }
  rewrite Forall_lookup in H. by apply (H _ _ Href).
Qed.

(** X14.  In every reachable state, a guess for the current round of a room
    that is PLAYING and has a deck entry for that round is handled without
    an exception. *)
Theorem guess_for_current_round_is_handled s sid roomId guessedPlayerId ref room currentImage :
  reachable s →
  getRoom s roomId = Some (ref, room) →
  Room.gameState room = PLAYING →
  Room.allImages room !! Room.currentImageIndex room = Some currentImage →
  threw (handle s (submit_guess sid roomId (Z.of_nat (Room.currentImageIndex room))
                     guessedPlayerId)) = false.
Proof.
  intros Hs Hget Hplay Himg. simpl. unfold onRoom. rewrite Hget. simpl.
  apply getRoom_Some in Hget as [_ Href].
  destruct (reachable_phaseOK s ref room Hs Href) as [_ Hp].
  destruct (Hp Hplay) as [_ [guesses Hg]].
  by eapply submitGuess_current_round_total.
Qed.

(** X15.  submit-guess resolves the round exactly when every present player
    has a recorded guess for the submitted round, the new guess included, as
    long as the players have distinct identifiers and the guess map of that
    round holds only guesses of present players: then the handler goes on
    with [processRoundResults], which throws or broadcasts round-results and
    arms the advance timer; otherwise it only records the guess and
    acknowledges it. *)
Theorem submitGuess_resolves_iff_all_guessed self sid imageIndex guessedPlayerId
    room i player guesses :
  findBySocket sid (Room.players room) = Some (i, player) →
  Room.guesses room = Some guesses →
  NoDup (Player.id <$> Room.players room) →
  (∀ playerId, is_Some (default ∅ (guesses !! imageIndex) !! playerId) →
               playerId ∈ Player.id <$> Room.players room) →
  let o := submitGuess self sid imageIndex guessedPlayerId room in
  let roundGuesses :=
    <[Player.id player := guessedPlayerId]> (default ∅ (guesses !! imageIndex)) in
  let room1 := Room.set_guesses (Some (<[imageIndex := roundGuesses]> guesses)) room in
  if decide (Forall (λ p, is_Some (roundGuesses !! Player.id p)) (Room.players room))
  then
    o = and_then (ret room1 [to_socket sid guess_submitted]) (processRoundResults self) ∧
    (threw o = true ∨
     ∃ ownerId ownerName results scores isLastRound,
       emitted o =
         [to_socket sid guess_submitted;
          to_room (Room.id room)
            (round_results ownerId ownerName results scores isLastRound);
          set_timeout (advance_timer self isLastRound scores) 4000])
  else o = ret room1 [to_socket sid guess_submitted].
Proof.
  intros Hfind Hg Hnd Hstale o roundGuesses room1.
  assert (Hin : Player.id player ∈ Player.id <$> Room.players room).
  { apply list_elem_of_fmap_2. eapply list_elem_of_lookup_2.
    by eapply findBySocket_lookup. }
  assert (Hstale' : ∀ playerId, is_Some (roundGuesses !! playerId) →
                      playerId ∈ Player.id <$> Room.players room).
  { intros playerId [g Hl]. unfold roundGuesses in Hl.
    apply lookup_insert_Some in Hl as [[<- _]|[_ Hl]]; [done|].
    apply Hstale. by exists g. }
  pose proof (trigger_without_stale_guesses roundGuesses (Room.players room)
                Hnd Hstale') as Htrigger.
  assert (Ho : o = and_then (ret room1 [to_socket sid guess_submitted])
                     (λ r, if bool_decide (length (Room.players r) ≤ size roundGuesses)
                           then processRoundResults self r else ret r [])).
  { unfold o, submitGuess. by rewrite Hfind, Hg. }
  rewrite Ho, !and_then_ret. cbn [Room.players Room.set_guesses room1].
  destruct (decide _) as [Hall|Hnot].
  - rewrite bool_decide_eq_true_2
      by (apply Htrigger; intros p Hp; by eapply Forall_forall in Hall).
    split; [done|]. cbn [threw emitted].
    destruct (processRoundResults_cases self room1)
      as [->|(rg & img & results & scores & isLast & ->)]; [by left|].
    right. by exists (ImageData.ownerId img), (ImageData.ownerName img), results, scores, isLast.
  - rewrite bool_decide_eq_false_2.
    + unfold ret. cbn [next emitted threw]. by rewrite app_nil_r.
    + intros Hle. apply Hnot, Forall_forall. by apply Htrigger.
Qed.

Lemma combineImages_length players :
  length (combineImages players) = sum_list ((λ p, length (Player.images p)) <$> players).
Proof.
  unfold combineImages. induction players as [|p players IH]; [done|].
  rewrite bind_cons, length_app, IH. unfold tagImages. by rewrite length_fmap.
Qed.

Lemma combineImages_owner players d :
  d ∈ combineImages players →
  ∃ p, p ∈ players ∧ ImageData.ownerId d = Player.id p ∧
       ImageData.ownerName d = Player.name p ∧ ImageData.image d ∈ Player.images p.
Proof.
  unfold combineImages. intros (p & Hd & Hp)%list_elem_of_bind.
  apply list_elem_of_fmap in Hd as (image & -> & Himage). by exists p.
Qed.

Lemma imap_lookup_Some {A B} (f : nat → A → B) (l : list A) k x :
  l !! k = Some x → imap f l !! k = Some (f k x).
Proof. intros H. by rewrite list_lookup_imap, H. Qed.

(** X16.  [startImageSync] changes only the deck.  The deck has as many
    entries as the players hold images (ten per player when each holds
    ten); every entry carries an image of some player of the room with that
    player's identifier and name; and one timer is armed per deck position
    k, with delay 100 k ms, for the image at that position. *)
Theorem startImageSync_deck_and_batches self draws room :
  let o := startImageSync self draws room in
  let deck := Room.allImages (next o) in
  threw o = false ∧
  next o = Room.set_allImages deck room ∧
  length deck = sum_list ((λ p, length (Player.images p)) <$> Room.players room) ∧
  (Forall (λ p, length (Player.images p) = 10) (Room.players room) →
   length deck = 10 * length (Room.players room)) ∧
  (∀ d, d ∈ deck →
     ∃ p, p ∈ Room.players room ∧ ImageData.ownerId d = Player.id p ∧
          ImageData.ownerName d = Player.name p ∧ ImageData.image d ∈ Player.images p) ∧
  length (emitted o) = length deck ∧
  (∀ k d, deck !! k = Some d →
     emitted o !! k = Some (set_timeout (batch_timer self k (ImageData.image d)) (k * 100))).
Proof.
  cbn zeta. unfold startImageSync. cbn [next emitted threw ret Room.allImages Room.set_allImages].
  pose proof (shuffle_Permutation draws (combineImages (Room.players room))) as Hperm.
  assert (Hlen : length (shuffle draws (combineImages (Room.players room)))
            = sum_list ((λ p, length (Player.images p)) <$> Room.players room)).
  { by rewrite Hperm, combineImages_length. }
  split_and!; [done|done|done| | | |].
  - intros Hten. rewrite Hlen. clear Hlen Hperm.
    induction Hten as [|p ps Hp _ IH]; [done|]. csimpl. rewrite Hp, IH. lia.
  - intros d Hd. apply combineImages_owner. by rewrite <-Hperm.
  - unfold scheduleBatches. by rewrite length_imap.
  - intros k d Hk. unfold scheduleBatches.
    by apply (imap_lookup_Some (λ index imageData,
                set_timeout (batch_timer self index (ImageData.image imageData))
                            (index * 100))).
Qed.

(** X17.  The timer that a round resolution arms, run on the room that the
    resolution left: after the last deck entry it sets GAME_OVER and
    broadcasts game-over; otherwise it moves to the next index, which has a
    deck entry, and broadcasts round-started with that entry's image.  The
    deck is not changed. *)
Theorem round_advance s_isLast self room roundGuesses guesses currentImage scores :
  Room.guesses room = Some guesses →
  guesses !! Z.of_nat (Room.currentImageIndex room) = Some roundGuesses →
  Room.allImages room !! Room.currentImageIndex room = Some currentImage →
  set_timeout (advance_timer self s_isLast scores) 4000
    ∈ emitted (processRoundResults self room) →
  let room1 := next (processRoundResults self room) in
  let o := advanceRound s_isLast scores room1 in
  let index := Room.currentImageIndex room in
  threw o = false ∧
  Room.allImages (next o) = Room.allImages room ∧
  if decide (index = length (Room.allImages room) - 1) then
    Room.gameState (next o) = GAME_OVER ∧
    Room.currentImageIndex (next o) = index ∧
    ∃ winner final, emitted o = [to_room (Room.id room) (game_over winner final)]
  else
    Room.gameState (next o) = Room.gameState room ∧
    Room.currentImageIndex (next o) = index + 1 ∧
    ∃ image, ImageData.image <$> Room.allImages room !! (index + 1) = Some image ∧
      emitted o = [to_room (Room.id room)
                     (round_started image (index + 1) (length (Room.allImages room))
                        (roster room1))].
Proof.
  intros Hg Hrg Himg Htimer. cbn zeta.
  pose proof (lookup_lt_Some _ _ _ Himg) as Hlt.
  destruct (processRoundResults_fields self room) as (Hid & Hgs & Hidx & Hdeck & _).
  cbn zeta in *.
  assert (Hlast : s_isLast = bool_decide (length (Room.allImages room) - 1
                                          ≤ Room.currentImageIndex room)).
  { revert Htimer. unfold processRoundResults. rewrite Hg, Hrg, Himg.
    destruct (Room.players room); cbn [emitted ret];
      rewrite !elem_of_cons; intros [[=]|[[=]|?%elem_of_nil]]; done. }
  unfold advanceRound. rewrite Hlast.
  case_bool_decide as Hb; case_decide as Hd; try lia; cbn [next emitted threw ret].
  - split_and!; [done|by simpl|by simpl|by simpl|]. simpl. rewrite Hid. eauto.
  - split_and!; [done|by simpl|by simpl|by simpl; lia|].
    assert (Hnext : Room.currentImageIndex room + 1 < length (Room.allImages room)) by lia.
    apply lookup_lt_is_Some_2 in Hnext as [d Hd'].
    exists (ImageData.image d). rewrite Hd'. split; [done|].
    unfold sendRound. simpl. rewrite Hidx, Hdeck, Hd', Hid. done.
Qed.

Lemma insertByScore_Permutation x l : insertByScore x l ≡ₚ x :: l.
Proof.
  induction l as [|y l IH]; simpl; [done|].
  destruct (se_score y <=? se_score x); [done|].
  by rewrite IH, Permutation_swap.
Qed.

Lemma sortScores_Permutation scores : sortScores scores ≡ₚ scores.
Proof.
  unfold sortScores. induction scores as [|x l IH]; simpl; [done|].
  by rewrite insertByScore_Permutation, IH.
Qed.

Lemma insertByScore_descending x l : descending l → descending (insertByScore x l).
Proof.
  induction l as [|y l IH]; simpl; [by split|].
  intros [Hy Hl]. destruct (se_score y <=? se_score x) eqn:E; simpl.
  - apply Nat.leb_le in E. split_and!; [|done..].
    constructor; [done|]. eapply Forall_impl; [done|]. simpl. intros; lia.
  - apply Nat.leb_gt in E. split; [|by apply IH].
    rewrite insertByScore_Permutation. constructor; [lia|done].
Qed.

Lemma sortScores_descending scores : descending (sortScores scores).
Proof.
  unfold sortScores. induction scores as [|x l IH]; simpl; [done|].
  by apply insertByScore_descending.
Qed.

Lemma insertByScore_stable v x l :
  filter (λ e, se_score e = v) (insertByScore x l)
  = filter (λ e, se_score e = v) (x :: l).
Proof.
  induction l as [|y l IH]; simpl; [done|].
  destruct (se_score y <=? se_score x) eqn:E; [done|].
  apply Nat.leb_gt in E.
  rewrite (filter_cons _ y), IH, !(filter_cons _ x), !(filter_cons _ y).
  repeat case_decide; try done. lia.
Qed.

Lemma sortScores_stable v scores :
  filter (λ e, se_score e = v) (sortScores scores)
  = filter (λ e, se_score e = v) scores.
Proof.
  unfold sortScores. induction scores as [|x l IH]; simpl; [done|].
  by rewrite insertByScore_stable, !filter_cons, IH.
Qed.

(** X18.  At game over the final scoreboard is the captured scoreboard sorted
    by descending score, entries of equal score keeping their order; the
    winner is its first entry: an entry of maximal score, the first one of
    that score in the captured scoreboard, and absent only when the
    scoreboard is empty. *)
Theorem game_over_winner scores room :
  let o := advanceRound true scores room in
  let final := sortScores scores in
  next o = Room.set_gameState GAME_OVER room ∧
  emitted o = [to_room (Room.id room) (game_over (head final) final)] ∧
  final ≡ₚ scores ∧
  descending final ∧
  (∀ v, filter (λ e, se_score e = v) final = filter (λ e, se_score e = v) scores) ∧
  (∀ winner, head final = Some winner →
     (∀ e, e ∈ scores → se_score e ≤ se_score winner) ∧
     head (filter (λ e, se_score e = se_score winner) scores) = Some winner) ∧
  (head final = None ↔ scores = []).
Proof.
  cbn zeta. pose proof (sortScores_Permutation scores) as Hperm.
  pose proof (sortScores_descending scores) as Hdesc.
  split_and!; [done|done|done|done|intros v; apply sortScores_stable| |].
  - intros winner Hhead.
    destruct (sortScores scores) as [|w rest] eqn:E; simplify_eq/=.
    destruct Hdesc as [Hle _]. split.
    + intros e He. rewrite <-Hperm in He.
      apply elem_of_cons in He as [->|He]; [done|].
      rewrite Forall_forall in Hle. by apply Hle.
    + rewrite <-sortScores_stable, E, filter_cons. by rewrite decide_True.
  - split.
    + intros Hnone. destruct (sortScores scores) eqn:E; [|done].
      by apply Permutation_nil_l in Hperm.
    + by intros ->.
Qed.

(** X1.  Whatever the draws, [generateRoomCode] returns six characters of the
    alphabet, none of which is I, O, 0 or 1. *)
Theorem room_code_shape draws :
  let code := generateRoomCode draws in
  String.length code = 6 ∧
  Forall (λ c, c ∈ alphabet ∧ c ∉ String.list_ascii_of_string "IO01")
         (String.list_ascii_of_string code).
Proof.
  cbn zeta. destruct (generateRoomCode_shape draws) as [Hlen Hall].
  split; [done|].
  eapply Forall_impl; [done|]. simpl. intros c Hc. split; [done|].
  assert (H : Forall (λ c, c ∉ String.list_ascii_of_string "IO01") alphabet).
  { apply (bool_decide_unpack _). by vm_compute. }
  rewrite Forall_forall in H. by apply H.
Qed.


Lemma onRoom_frame s roomId notFound h ref' room' :
  heap s !! ref' = Some room' →
  (fst <$> getRoom s roomId) ≠ Some ref' →
  heap (next (onRoom s roomId notFound h)) !! ref' = Some room'.
Proof.
  intros Href' Hne. unfold onRoom.
  destruct (getRoom s roomId) as [[ref room]|]; [|done]. simpl in *.
  rewrite list_lookup_insert_ne; [done|]. by intros ->.
Qed.

(** X21.  A command or grace timer that names a room code changes no room
    object other than the one the code resolves to, and does not change
    what any other code resolves to in the registry. *)
Theorem handle_touches_only_named_room s i roomId ref' room' :
  roomCodeOf i = Some roomId →
  heap s !! ref' = Some room' →
  (fst <$> getRoom s roomId) ≠ Some ref' →
  heap (next (handle s i)) !! ref' = Some room' ∧
  (∀ code, code ≠ roomId → Map_get (rooms (next (handle s i))) code = Map_get (rooms s) code).
Proof.
  intros Hi Href' Hne. split.
  - destruct i as [| | | | | | | | | |[]]; simplify_eq/=;
      try by apply onRoom_frame.
    + unfold joinRoom. destruct (getRoom s roomId) as [[ref room]|]; [|done].
      case_bool_decide; [done|]. simpl in *.
      rewrite list_lookup_insert_ne; [done|]. by intros ->.
    + unfold fireGrace. destruct (getRoom s roomId) as [[ref room]|]; [|done].
      destruct (findById _ _) as [[??]|]; [|done].
      case_bool_decide; [|done].
      destruct (removePlayer _ _ _) as [o emptied]. simpl in *.
      rewrite list_lookup_insert_ne; [done|]. by intros ->.
  - intros code Hcode.
    destruct (handle_rooms s i) as [->|[(? & ? & -> & _)|(? & ? & ? & -> & ->)]];
      [done|done|].
    simplify_eq/=. by apply Map_get_delete_ne.
Qed.

(** X22.  A session saved at time [now] is returned by a read at time [now']
    exactly when [now' - now] is at most two hours, and a read returns that
    session or nothing.  A read after expiry removes the item, so that every
    later read returns nothing; a read before expiry leaves the item; and
    after [clearGameSession] a read returns nothing. *)
Theorem session_lifetime now now' later roomId playerId item g r g' r' :
  let saved := saveGameSession false now roomId playerId item in
  let session := Session.mk roomId playerId now in
  let read := getGameSession false r now' saved in
  (read.1 = Some session ↔ (now' - now ≤ TWO_HOURS)%Z) ∧
  (read.1 = None ∨ read.1 = Some session) ∧
  ((TWO_HOURS < now' - now)%Z → r = false →
     read.2 = None ∧ (getGameSession g' r' later read.2).1 = None) ∧
  ((now' - now ≤ TWO_HOURS)%Z → read.2 = saved) ∧
  (getGameSession g r' later (clearGameSession false saved)).1 = None.
Proof.
  cbn zeta. unfold saveGameSession, getGameSession, clearGameSession. simpl.
  destruct (Z.ltb_spec TWO_HOURS (now' - now)) as [Hlt|Hle].
  - split_and!.
    + split; [by destruct r|lia].
    + left. by destruct r.
    + intros _ ->. simpl. by destruct g'.
    + lia.
    + by destruct g.
  - split_and!; [done|by right|lia|done|by destruct g].
Qed.

(** ** The further properties on concrete states *)

Lemma two_in_lobby_reachable : reachable (next (run init two_in_lobby)).
Proof. apply run_reachable; [apply reachable_init|reflexivity]. Defined.

Lemma two_in_lobby_room :
  getRoom (next (run init two_in_lobby)) "ABCDEF" = Some (0, lobby_of_two).
Proof. reflexivity. Defined.

Lemma registered_room_sound_witness :
  let s := next (run init two_in_lobby) in
  reachable s ∧ getRoom s "ABCDEF" = Some (0, lobby_of_two) ∧
  Room.id lobby_of_two = "ABCDEF" ∧ Room.players lobby_of_two ≠ [].
Proof.
  intros s.
  destruct (registered_room_sound s "ABCDEF" 0 lobby_of_two
              two_in_lobby_reachable two_in_lobby_room) as (Hid & Hne & _).
  split; [exact two_in_lobby_reachable|]. split; [exact two_in_lobby_room|].
  split; [exact Hid|exact Hne].
Defined.

Lemma join_room_adds_fresh_player_witness :
  let s := next (createRoom "s1" drawsABCDEF init) in
  let room := newRoom "ABCDEF" "s1" 0 in
  reachable s ∧ getRoom s "ABCDEF" = Some (0, room) ∧ Room.gameState room = LOBBY ∧
  getRoom (next (handle s (join_room "s2" "ABCDEF" "bob"))) "ABCDEF"
    = Some (0, lobby_of_two).
Proof.
  intros s room.
  assert (Hs : reachable s).
  { apply (reachable_step init (create_room "s1" drawsABCDEF));
      [apply reachable_init|reflexivity]. }
  assert (Hget : getRoom s "ABCDEF" = Some (0, room)) by reflexivity.
  assert (Hstate : Room.gameState room = LOBBY) by reflexivity.
  destruct (join_room_adds_fresh_player s "s2" "ABCDEF" "bob" 0 room Hs Hget Hstate)
    as (_ & Hjoined & _).
  split; [exact Hs|]. split; [exact Hget|]. split; [exact Hstate|exact Hjoined].
Defined.

Lemma reconnect_voids_grace_timer_witness :
  let s := next (run init two_in_lobby) in
  let s1 := next (handle s (reconnect_to_room "s9" "ABCDEF" 1)) in
  getRoom s "ABCDEF" = Some (0, lobby_of_two) ∧
  findById 1 (Room.players lobby_of_two)
    = Some (1, Player.mk 1 "s2" "bob" false 0 0 []) ∧
  "s9" ≠ "s2" ∧
  handle s1 (timer_fires (grace_timer "ABCDEF" 1 "s2")) = ret s1 [].
Proof.
  intros s s1.
  assert (Hfind : findById 1 (Room.players lobby_of_two)
            = Some (1, Player.mk 1 "s2" "bob" false 0 0 [])) by reflexivity.
  assert (Hne : "s9" ≠ "s2") by discriminate.
  split; [exact two_in_lobby_room|]. split; [exact Hfind|]. split; [exact Hne|].
  exact (reconnect_voids_grace_timer s "s2" "s9" "ABCDEF" 1 0 lobby_of_two 1 _
           two_in_lobby_room Hfind Hne).
Defined.

Lemma grace_timer_removes_player_witness :
  let s := next (run init two_in_lobby) in
  let o := handle s (timer_fires (grace_timer "ABCDEF" 1 "s2")) in
  reachable s ∧ getRoom s "ABCDEF" = Some (0, lobby_of_two) ∧
  findById 1 (Room.players lobby_of_two)
    = Some (1, Player.mk 1 "s2" "bob" false 0 0 []) ∧
  Player.socketId (Player.mk 1 "s2" "bob" false 0 0 []) = "s2" ∧
  head (emitted o) = Some (to_room "ABCDEF" (player_left 1 "bob")).
Proof.
  intros s o.
  assert (Hfind : findById 1 (Room.players lobby_of_two)
            = Some (1, Player.mk 1 "s2" "bob" false 0 0 [])) by reflexivity.
  destruct (grace_timer_removes_player s "ABCDEF" 1 "s2" 0 lobby_of_two 1 _
              two_in_lobby_reachable two_in_lobby_room Hfind eq_refl)
    as (_ & Hleft & _).
  split; [exact two_in_lobby_reachable|]. split; [exact two_in_lobby_room|].
  split; [exact Hfind|]. split; [reflexivity|exact Hleft].
Defined.

Lemma stranger_commands_change_nothing_witness :
  let s := next (run init two_in_lobby) in
  let i := images_synced "s7" "ABCDEF" 3 in
  commandOf i = Some ("s7", "ABCDEF") ∧
  (∀ ref room, getRoom s "ABCDEF" = Some (ref, room) →
               findBySocket "s7" (Room.players room) = None) ∧
  next (handle s i) = s.
Proof.
  intros s i.
  assert (Hnone : ∀ ref room, getRoom s "ABCDEF" = Some (ref, room) →
                    findBySocket "s7" (Room.players room) = None).
  { intros ref room H. unfold s in H. rewrite two_in_lobby_room in H.
    injection H as <- <-. reflexivity. }
  destruct (stranger_commands_change_nothing s i "s7" "ABCDEF" eq_refl Hnone)
    as (Hnext & _).
  split; [reflexivity|]. split; [exact Hnone|exact Hnext].
Defined.

Lemma host_only_commands_witness :
  let s := next (run init two_in_lobby) in
  getRoom s "ABCDEF" = Some (0, lobby_of_two) ∧
  isHostSocket "s2" lobby_of_two = false ∧
  handle s (new_game "s2" "ABCDEF") = ret s [].
Proof.
  intros s.
  destruct (host_only_commands s "s2" "ABCDEF" 0 lobby_of_two two_in_lobby_room eq_refl)
    as [_ Hnew].
  split; [exact two_in_lobby_room|]. split; [reflexivity|exact Hnew].
Defined.

Lemma new_game_requires_new_sync_witness :
  let s := next (run init two_in_lobby) in
  let s1 := next (handle s (new_game "s1" "ABCDEF")) in
  getRoom s "ABCDEF" = Some (0, lobby_of_two) ∧
  isHostSocket "s1" lobby_of_two = true ∧
  handle s1 (start_game "s1" "ABCDEF")
    = ret s1 [callback (ack_error "Images not synced yet")].
Proof.
  intros s s1.
  destruct (new_game_requires_new_sync s "s1" "ABCDEF" 0 lobby_of_two
              two_in_lobby_room eq_refl) as (_ & _ & _ & _ & Hstart).
  split; [exact two_in_lobby_room|]. split; [reflexivity|exact Hstart].
Defined.


Lemma round_advance_witness :
  let scores :=
    [{| se_id := 0; se_name := "ann"; se_score := 400 |};
     {| se_id := 1; se_name := "bob"; se_score := 100 |};
     {| se_id := 2; se_name := "carol"; se_score := 0 |}] in
  let room1 := next (processRoundResults 0 room_in_round) in
  Room.guesses room_in_round = Some {[ 0%Z := {[ 0 := 0; 1 := 1 ]} ]} ∧
  ({[ 0%Z := {[ 0 := 0; 1 := 1 ]} ]} : gmap Z (gmap nat nat))
    !! Z.of_nat (Room.currentImageIndex room_in_round)
    = Some {[ 0 := 0; 1 := 1 ]} ∧
  Room.allImages room_in_round !! Room.currentImageIndex room_in_round
    = Some (ImageData.mk "a0" 0 "ann") ∧
  set_timeout (advance_timer 0 false scores) 4000
    ∈ emitted (processRoundResults 0 room_in_round) ∧
  Room.currentImageIndex (next (advanceRound false scores room1)) = 1.
Proof.
  intros scores room1.
  assert (Htimer : set_timeout (advance_timer 0 false scores) 4000
                   ∈ emitted (processRoundResults 0 room_in_round)).
  { right. left. }
  pose proof (round_advance false 0 room_in_round {[ 0 := 0; 1 := 1 ]}
                {[ 0%Z := {[ 0 := 0; 1 := 1 ]} ]} (ImageData.mk "a0" 0 "ann") scores
                eq_refl eq_refl eq_refl Htimer) as (_ & _ & Hcase).
  split; [reflexivity|]. split; [reflexivity|]. split; [reflexivity|].
  split; [exact Htimer|]. exact (proj1 (proj2 Hcase)).
Defined.

Lemma reachable_player_fields_witness :
  let s := next (run init two_in_lobby) in
  let bob := Player.mk 1 "s2" "bob" false 0 0 [] in
  reachable s ∧ heap s !! 0 = Some lobby_of_two ∧ bob ∈ Room.players lobby_of_two ∧
  Player.imageCount bob = length (Player.images bob).
Proof.
  intros s bob.
  assert (Href : heap s !! 0 = Some lobby_of_two) by reflexivity.
  assert (Hin : bob ∈ Room.players lobby_of_two) by (right; left).
  destruct (reachable_player_fields s 0 lobby_of_two bob
              two_in_lobby_reachable Href Hin) as [Hcount _].
  split; [exact two_in_lobby_reachable|]. split; [exact Href|].
  split; [exact Hin|exact Hcount].
Defined.

Lemma reachable_phase_witness :
  let s := next (run init two_in_lobby) in
  reachable s ∧ heap s !! 0 = Some lobby_of_two ∧
  Room.gameState lobby_of_two ≠ RESULTS.
Proof.
  intros s.
  assert (Href : heap s !! 0 = Some lobby_of_two) by reflexivity.
  destruct (reachable_phase s 0 lobby_of_two two_in_lobby_reachable Href) as [Hres _].
  split; [exact two_in_lobby_reachable|]. split; [exact Href|exact Hres].
Defined.

Lemma handle_touches_only_named_room_witness :
  let s := next (run init [create_room "s1" drawsABCDEF; create_room "s2" [1; 1; 1; 1; 1; 1]]) in
  let i := update_name "s1" "ABCDEF" "ann" in
  let other := newRoom "BBBBBB" "s2" 1 in
  roomCodeOf i = Some "ABCDEF" ∧ heap s !! 1 = Some other ∧
  (fst <$> getRoom s "ABCDEF") ≠ Some 1 ∧
  heap (next (handle s i)) !! 1 = Some other.
Proof.
  intros s i other.
  assert (Href : heap s !! 1 = Some other) by reflexivity.
  assert (Hne : (fst <$> getRoom s "ABCDEF") ≠ Some 1) by discriminate.
  destruct (handle_touches_only_named_room s i "ABCDEF" 1 other eq_refl Href Hne)
    as [Hsame _].
  split; [reflexivity|]. split; [exact Href|]. split; [exact Hne|exact Hsame].
Defined.

Lemma guess_for_current_round_is_handled_witness :
  let s := next (run init solo_game) in
  let room := default (newRoom "" "" 0) (heap s !! 0) in
  let currentImage := ImageData.mk "a1" 0 "" in
  reachable s ∧ getRoom s "ABCDEF" = Some (0, room) ∧
  Room.gameState room = PLAYING ∧
  Room.allImages room !! Room.currentImageIndex room = Some currentImage ∧
  threw (handle s (submit_guess "s1" "ABCDEF" (Z.of_nat (Room.currentImageIndex room)) 0))
    = false.
Proof.
  intros s room currentImage.
  assert (Hs : reachable s).
  { apply run_reachable; [apply reachable_init|]. vm_compute. reflexivity. }
  assert (Hget : getRoom s "ABCDEF" = Some (0, room)) by (vm_compute; reflexivity).
  assert (Hplay : Room.gameState room = PLAYING) by (vm_compute; reflexivity).
  assert (Himg : Room.allImages room !! Room.currentImageIndex room = Some currentImage)
    by (vm_compute; reflexivity).
  split; [exact Hs|]. split; [exact Hget|]. split; [exact Hplay|].
  split; [exact Himg|].
  exact (guess_for_current_round_is_handled s "s1" "ABCDEF" 0 0 room currentImage
           Hs Hget Hplay Himg).
Defined.

Lemma submitGuess_resolves_iff_all_guessed_witness :
  let guesses : gmap Z (gmap nat nat) := {[ 0%Z := {[ 0 := 0; 1 := 1 ]} ]} in
  let o := submitGuess 0 "s3" 0 1 room_in_round in
  findBySocket "s3" (Room.players room_in_round)
    = Some (2, Player.mk 2 "s3" "carol" false 10 0 []) ∧
  Room.guesses room_in_round = Some guesses ∧
  NoDup (Player.id <$> Room.players room_in_round) ∧
  (∀ playerId, is_Some (default ∅ (guesses !! 0%Z) !! playerId) →
               playerId ∈ Player.id <$> Room.players room_in_round) ∧
  threw o = false ∧
  ∃ ownerId ownerName results scores isLastRound,
    emitted o =
      [to_socket "s3" guess_submitted;
       to_room "ABCDEF" (round_results ownerId ownerName results scores isLastRound);
       set_timeout (advance_timer 0 isLastRound scores) 4000].
Proof.
  intros guesses o.
  assert (Hfind : findBySocket "s3" (Room.players room_in_round)
            = Some (2, Player.mk 2 "s3" "carol" false 10 0 [])) by reflexivity.
  assert (Hg : Room.guesses room_in_round = Some guesses) by reflexivity.
  assert (Hnd : NoDup (Player.id <$> Room.players room_in_round)).
  { apply (bool_decide_unpack _). by vm_compute. }
  assert (Hstale : ∀ playerId, is_Some (default ∅ (guesses !! 0%Z) !! playerId) →
                     playerId ∈ Player.id <$> Room.players room_in_round).
  { intros playerId [g Hl]. unfold guesses in Hl.
    rewrite lookup_singleton_eq in Hl. cbn [default from_option] in Hl. unfold id in Hl.
    apply lookup_insert_Some in Hl as [[<- _]|[_ Hl]]; [left|].
    apply lookup_singleton_Some in Hl as [<- _]. right. left. }
  pose proof (submitGuess_resolves_iff_all_guessed 0 "s3" 0 1 room_in_round 2 _ guesses
                Hfind Hg Hnd Hstale) as Hres.
  cbv zeta in Hres.
  destruct (decide _) as [_|Hnot] in Hres.
  - destruct Hres as [_ [Hthrew|Hout]]; [by vm_compute in Hthrew|].
    split; [exact Hfind|]. split; [exact Hg|]. split; [exact Hnd|].
    split; [exact Hstale|]. split; [reflexivity|exact Hout].
  - exfalso. apply Hnot. repeat constructor; by vm_compute.
Defined.

